(** * mangadex-downloader: the command prompt and the cover-art adapter

    A shallow embedding of [mangadex_downloader/cli/command.py]
    ([BaseCommand], [MangaDexCommand], the filter parsing of
    [SearchMangaCommand]) and of [mangadex_downloader/cover.py]
    ([CoverArt.__init__]), with the properties of the specification
    stated and proved over it.

    Conventions.
    - A Python [str] is a [string]; a character is a code point below 256.
    - A Python [dict] keeps insertion order, which [choices.values()]
      exposes: it is an association list with unique keys ([PyDict]).
    - Printing, reading a line, calling a hook and fetching a page are
      recorded in an event log; an exception that nobody catches, and
      [args_parser.error] (argparse: print the message and exit), end the
      run with the corresponding outcome.
    - The [Paginator], [get_key_value] and [split_comma_separated] live in
      [cli/utils.py], outside the two modules embedded here: the engine
      is written over an interface for the first, and the other two are
      arguments of the filter parsing. *)

From Stdlib Require Import Ascii.
From stdpp Require Import base option list strings pretty.

#[local] Set Warnings "-clear-no-such-hyp".

(** ** Strings, as the Python code uses them *)

Module PyStr.

(** [s.startswith(pre)] *)
Fixpoint startswith (s pre : string) : bool :=
  match pre with
  | EmptyString => true
  | String p pre' =>
      match s with
      | EmptyString => false
      | String c s' => if decide (c = p) then startswith s' pre' else false
      end
  end.

Fixpoint drop (n : nat) (s : string) : string :=
  match n, s with
  | S n', String _ s' => drop n' s'
  | _, _ => s
  end.

(** [sub in s] *)
Fixpoint contains (sub s : string) : bool :=
  startswith s sub ||
  match s with
  | EmptyString => false
  | String _ s' => contains sub s'
  end.

(** [s.split(sep, maxsplit=1)] for a non-empty [sep]: the text before and
    after the first occurrence of [sep], or [None] when [sep] does not
    occur (Python then returns the one-element list [[s]]). *)
Fixpoint split_once (sep s : string) : option (string * string) :=
  if startswith s sep then Some (EmptyString, drop (String.length sep) s)
  else match s with
       | EmptyString => None
       | String c s' =>
           match split_once sep s' with
           | Some (before, after) => Some (String c before, after)
           | None => None
           end
       end.

(** [c.isspace()] on code points below 256: TAB, LF, VT, FF, CR, the
    separators FS, GS, RS, US, the space, NEL and the no-break space. *)
Definition isspace (c : ascii) : bool :=
  let n := nat_of_ascii c in
  ((9 <=? n) && (n <=? 13)) || ((28 <=? n) && (n <=? 32))
  || (n =? 133) || (n =? 160).

Fixpoint lstrip (s : string) : string :=
  match s with
  | String c s' => if isspace c then lstrip s' else s
  | EmptyString => EmptyString
  end.

Fixpoint rstrip (s : string) : string :=
  match s with
  | EmptyString => EmptyString
  | String c s' =>
      match rstrip s' with
      | EmptyString => if isspace c then EmptyString else String c EmptyString
      | r => String c r
      end
  end.

(** [s.strip()] *)
Definition strip (s : string) : string := rstrip (lstrip s).

End PyStr.

(** ** Insertion-ordered dictionaries with string keys *)

Module PyDict.
Section dict.
Context {V : Type}.

(** [d.get(k)]; [None] stands for the [KeyError] of [d[k]]. *)
Fixpoint get (k : string) (d : list (string * V)) : option V :=
  match d with
  | [] => None
  | (k', v) :: d' => if decide (k = k') then Some v else get k d'
  end.

(** [d[k] = v]: a bound key keeps its place, a new key goes last. *)
Fixpoint set (k : string) (v : V) (d : list (string * V))
  : list (string * V) :=
  match d with
  | [] => [(k, v)]
  | (k', v') :: d' =>
      if decide (k = k') then (k, v) :: d' else (k', v') :: set k v d'
  end.

(** [d.pop(k)] on a key that is bound. *)
Fixpoint pop (k : string) (d : list (string * V)) : list (string * V) :=
  match d with
  | [] => []
  | (k', v') :: d' =>
      if decide (k = k') then d' else (k', v') :: pop k d'
  end.

Definition keys (d : list (string * V)) : list string := d.*1.
Definition values (d : list (string * V)) : list V := d.*2.
End dict.
End PyDict.

Abbreviation dict V := (list (string * V)).

(** ** The collaborators of the engine *)

Inductive Action := Next | Previous.

(** What a call of the paginator can raise: [IteratorEmpty] and
    [IndexError], the two conditions the callers of [_insert_choices] catch,
    and [OtherError], an exception of any other class (neither of the two
    nor a subclass of them), given by the name of its class; no caller
    catches it. *)
Inductive PageError :=
| IteratorEmpty
| IndexError
| OtherError (name : string).

(** The exceptions that leave the code embedded here; [PaginatorError] is
    an exception of the paginator other than [IteratorEmpty] and
    [IndexError], on its way out. *)
Inductive PyExn :=
| UnboundLocalError (var : string)
| AttributeError (attr : string)
| KeyError (key : string)
| TypeError
| UncaughtIndexError
| HookError (msg : string)
| PaginatorError (name : string).

(** What one call [getattr(self.paginator, action)()] gives to the [for]
    loop of [_insert_choices]: the pairs it delivers before it either ends
    or raises. *)
Record Fetch (Item : Type) := MkFetch {
  delivered : list (nat * Item);
  raised : option PageError
}.
Arguments MkFetch {Item}.
Arguments delivered {Item}.
Arguments raised {Item}.

(** The interface of [Paginator] the engine relies on. *)
Class PaginatorOps (P Item : Type) := {
  pg_call : Action → P → P * Fetch Item
}.

(** What the engine needs from an item: [item.id], [str(item)] and whether
    [iter(item)] succeeds (and with which elements). *)
Class ItemLike (Item : Type) := {
  item_id : Item → string;
  item_str : Item → string;
  item_iter : Item → option (list Item)
}.

(** The methods a command variant overrides: [preview()], [on_preview(item)]
    ([Some e]: it raises [e]) and [on_empty_error()] ([None]: it returns, as
    in [BaseCommand]; [Some msg]: it calls [args_parser.error(msg)]). *)
Record Variant (Item : Type) := MkVariant {
  preview : bool;
  on_preview : Item → option PyExn;
  on_empty_error : option string
}.
Arguments MkVariant {Item}.
Arguments preview {Item}.
Arguments on_preview {Item}.
Arguments on_empty_error {Item}.

(** [BaseCommand] itself. *)
Definition BaseVariant {Item : Type} : Variant Item :=
  MkVariant false (λ _, None) None.

Inductive Event (Item : Type) :=
| EvFetch (a : Action)             (* [getattr(self.paginator, action)()] *)
| EvPrintError (msg : string)      (* [_error(msg)]: print *)
| EvPrintChoices (text : string)   (* [_print_choices()] *)
| EvPreview (item : Item)          (* [on_preview(item)] *)
| EvEmptyHook                      (* [on_empty_error()] *)
| EvYield (item : Item).           (* [yield item] in [_return_from] *)
Arguments EvFetch {Item}.
Arguments EvPrintError {Item}.
Arguments EvPrintChoices {Item}.
Arguments EvPreview {Item}.
Arguments EvEmptyHook {Item}.
Arguments EvYield {Item}.

(** ** [BaseCommand] *)

Definition nl : string := String (ascii_of_nat 10) EmptyString.

(** The attributes of [self] that the prompt reads and writes. *)
Record Command (P : Type) := MkCommand {
  paginator : P;
  _text_choices : string
}.
Arguments MkCommand {P}.
Arguments paginator {P}.
Arguments _text_choices {P}.

(** The local variables of [BaseCommand.prompt] that live across the
    iterations of its loop; [action] is unbound ([None]) until a first
    "next" or "previous" assigns it. *)
Record Session (P Item : Type) := MkSession {
  self : Command P;
  choices : dict Item;
  action : option Action
}.
Arguments MkSession {P Item}.
Arguments self {P Item}.
Arguments choices {P Item}.
Arguments action {P Item}.

(** How a call of the interactive [prompt] ends; [Waiting] is the loop
    blocked in [input_handle] once the given input lines are used up. *)
Inductive Outcome (P Item : Type) :=
| Returned (r : option Item)
| Exited (msg : string)
| Raised (e : PyExn)
| Waiting (s : Session P Item).
Arguments Returned {P Item}.
Arguments Exited {P Item}.
Arguments Raised {P Item}.
Arguments Waiting {P Item}.

(** How the generator of [_return_from] ends when it is consumed to its
    end; [GenFuel] is the model running out of loop iterations. *)
Inductive GenEnd :=
| GenReturn
| GenExit (msg : string)
| GenRaise (e : PyExn)
| GenFuel.

(** The name [action] holds for [getattr(self.paginator, action)]. *)
Definition command_word (a : Action) : string :=
  match a with Next => "next" | Previous => "previous" end.

(** The label a preview request names. *)
Definition preview_label (answer : string) : string :=
  PyStr.strip (PyStr.drop 7 answer).

Section BaseCommand.
Context {P Item : Type} `{!PaginatorOps P Item, !ItemLike Item}.
Variable variant : Variant Item.

(** [_error(message)] with [exit=False]. *)
Definition _error (message : string) : Event Item :=
  EvPrintError (nl +:+ "Error: " +:+ message +:+ nl).

(** One turn of the [for] loop of [_insert_choices]. *)
Definition insert_pair (acc : dict Item * string) (p : nat * Item)
  : dict Item * string :=
  (PyDict.set (pretty p.1) p.2 acc.1,
   acc.2 +:+ "(" +:+ pretty p.1 +:+ "). " +:+ item_str p.2 +:+ nl).

(** [_insert_choices(choices, action)]: the pairs the paginator delivers are
    stored under [str(pos)]; [_text_choices] is replaced only when the loop
    ran to its end. The condition raised, if any, is handed to the caller. *)
Definition _insert_choices (a : Action) (cmd : Command P) (ch : dict Item)
  : Command P * dict Item * option PageError :=
  let '(pg, f) := pg_call a (paginator cmd) in
  let '(ch', text) := foldl insert_pair (ch, EmptyString) (delivered f) in
  match raised f with
  | Some e => (MkCommand pg (_text_choices cmd), ch', Some e)
  | None => (MkCommand pg text, ch', None)
  end.

(** The [try] around [_insert_choices(choices, action)] in the loop of
    [prompt]: [IteratorEmpty] and [IndexError] are reported and the loop
    goes on; any other exception leaves [prompt]. *)
Definition fetch_reporting (a : Action) (s : Session P Item)
  : list (Event Item) * (Outcome P Item + Session P Item) :=
  let '(cmd, ch, err) := _insert_choices a (self s) (choices s) in
  match err with
  | Some IteratorEmpty =>
      ([EvFetch a; _error "There are no more results"],
       inr (MkSession cmd ch (action s)))
  | Some IndexError =>
      ([EvFetch a; _error "Choices are out of range, try again"],
       inr (MkSession cmd ch (action s)))
  | Some (OtherError name) => ([EvFetch a], inl (Raised (PaginatorError name)))
  | None => ([EvFetch a], inr (MkSession cmd ch (action s)))
  end.

(** The body of [if answer is not None:] for one line [answer]: either the
    call ends ([inl]) or the loop goes on to print the choices and read the
    next line ([inr]). *)
Definition dispatch (answer : string) (s : Session P Item)
  : list (Event Item) * (Outcome P Item + Session P Item) :=
  if PyStr.startswith answer "preview" && preview variant then
    match PyStr.split_once "preview" answer with
    | None => ([], inl (Raised UncaughtIndexError))
    | Some (_, rest) =>
        let answer_item := PyStr.strip rest in
        match PyDict.get answer_item (choices s) with
        | None => ([_error "Invalid choice, try again"], inr s)
        | Some item =>
            match on_preview variant item with
            | Some e => ([EvPreview item], inl (Raised e))
            | None => ([EvPreview item], inr s)
            end
        end
    end
  else
    let chosen :=
      if PyStr.startswith answer "next" then
        inr ([], MkSession (self s) (choices s) (Some Next))
      else if PyStr.startswith answer "previous" then
        inr ([], MkSession (self s) (choices s) (Some Previous))
      else
        match PyDict.get answer (choices s) with
        | None => inr ([_error "Invalid choice, try again"], s)
        | Some item => inl item
        end in
    match chosen with
    | inl item => ([], inl (Returned (Some item)))
    | inr (evs, s1) =>
        match action s1 with
        | None => (evs, inl (Raised (UnboundLocalError "action")))
        | Some a =>
            let '(evs', next) := fetch_reporting a s1 in
            (evs ++ evs', next)
        end
    end.

(** The line is taken as a preview request. *)
Definition taken_as_preview (answer : string) : bool :=
  PyStr.startswith answer "preview" && preview variant.

(** The loop of [prompt] from [self._print_choices()] on, fed with the lines
    [input_handle] returns. *)
Fixpoint prompt_loop (inputs : list string) (s : Session P Item)
  : list (Event Item) * Outcome P Item :=
  let shown := EvPrintChoices (_text_choices (self s)) in
  match inputs with
  | [] => ([shown], Waiting s)
  | answer :: inputs' =>
      match dispatch answer s with
      | (evs, inl out) => (shown :: evs, out)
      | (evs, inr s') =>
          let '(evs', out) := prompt_loop inputs' s' in
          (shown :: evs ++ evs', out)
      end
  end.

(** [on_empty_error()] followed by [return]. *)
Definition empty_exit : list (Event Item) * option string :=
  ([EvEmptyHook], on_empty_error variant).

(** [prompt()] without [input_pos] (or with a falsy one). *)
Definition prompt_interactive (cmd : Command P) (inputs : list string)
  : list (Event Item) * Outcome P Item :=
  let '(cmd', ch, err) := _insert_choices Next cmd [] in
  match err with
  | Some IteratorEmpty =>
      (EvFetch Next :: empty_exit.1,
       match empty_exit.2 with
       | Some msg => Exited msg
       | None => Returned None
       end)
  | Some IndexError => ([EvFetch Next], Raised UncaughtIndexError)
  | Some (OtherError name) => ([EvFetch Next], Raised (PaginatorError name))
  | None =>
      let '(evs, out) := prompt_loop inputs (MkSession cmd' ch None) in
      (EvFetch Next :: evs, out)
  end.

(** The [while True] loop of [_return_from], at most [fuel] turns of it. *)
Fixpoint return_from_loop (fuel : nat) (pos : string)
    (cmd : Command P) (ch : dict Item) : list (Event Item) * GenEnd :=
  match fuel with
  | 0 => ([], GenFuel)
  | S fuel' =>
      match PyDict.get pos ch with
      | Some result => ([EvYield result], GenReturn)
      | None =>
          let yielded :=
            if decide (pos = "*") then EvYield <$> PyDict.values ch else [] in
          let '(cmd', ch', err) := _insert_choices Next cmd ch in
          match err with
          | Some IteratorEmpty =>
              (yielded ++ [EvFetch Next],
               GenExit "There are no more results")
          | Some IndexError =>
              let '(evs, e) := return_from_loop fuel' pos cmd' ch' in
              (yielded ++ EvFetch Next
                 :: _error "Choices are out of range, try again" :: evs, e)
          | Some (OtherError name) =>
              (yielded ++ [EvFetch Next], GenRaise (PaginatorError name))
          | None =>
              let '(evs, e) := return_from_loop fuel' pos cmd' ch' in
              (yielded ++ EvFetch Next :: evs, e)
          end
      end
  end.

(** [_return_from(pos)], consumed to its end. *)
Definition _return_from (fuel : nat) (pos : string) (cmd : Command P)
  : list (Event Item) * GenEnd :=
  let '(cmd', ch, err) := _insert_choices Next cmd [] in
  match err with
  | Some IteratorEmpty =>
      (EvFetch Next :: empty_exit.1,
       match empty_exit.2 with
       | Some msg => GenExit msg
       | None => GenReturn
       end)
  | Some IndexError => ([EvFetch Next], GenRaise UncaughtIndexError)
  | Some (OtherError name) => ([EvFetch Next], GenRaise (PaginatorError name))
  | None =>
      let '(evs, e) := return_from_loop fuel pos cmd' ch in
      (EvFetch Next :: evs, e)
  end.

(** What [BaseCommand.prompt] hands back: the generator of [_return_from]
    (here with the trace of its full consumption), or the result of the
    interactive loop. *)
Inductive Answer :=
| AnsGenerator (trace : list (Event Item) * GenEnd)
| AnsPrompt (run : list (Event Item) * Outcome P Item).

(** [input_pos] is truthy when it is a non-empty string. *)
Definition truthy_pos (input_pos : option string) : option string :=
  match input_pos with
  | Some EmptyString | None => None
  | Some pos => Some pos
  end.

Definition prompt (input_pos : option string) (fuel : nat)
    (inputs : list string) (cmd : Command P) : Answer :=
  match truthy_pos input_pos with
  | Some pos => AnsGenerator (_return_from fuel pos cmd)
  | None => AnsPrompt (prompt_interactive cmd inputs)
  end.

End BaseCommand.

(** ** [MangaDexCommand] *)

(** What [MangaDexCommand.prompt] hands back: the list [[answer.id]], the
    generator [iter_answer()] (here the ids it yields when consumed to its
    end, and how the underlying generator ends), or nothing because the
    call did not return. *)
Inductive MdxAnswer (P Item : Type) :=
| MdxList (ids : list string)
| MdxIter (ids : list string) (e : GenEnd)
| MdxStop (o : Outcome P Item).
Arguments MdxList {P Item}.
Arguments MdxIter {P Item}.
Arguments MdxStop {P Item}.

Section MangaDexCommand.
Context {P Item : Type} `{!PaginatorOps P Item, !ItemLike Item}.
Variable variant : Variant Item.

(** The items a trace yields, in order. *)
Definition yields (evs : list (Event Item)) : list Item :=
  omap (λ e, match e with EvYield item => Some item | _ => None end) evs.

(** The generator [iter_answer]: [ids] is the list it appends to. *)
Fixpoint iter_answer (ids : list string) (answer : list Item) : list string :=
  match answer with
  | [] => []
  | item :: answer' =>
      if decide (item_id item ∈ ids) then iter_answer ids answer'
      else item_id item :: iter_answer (ids ++ [item_id item]) answer'
  end.

Definition MangaDexCommand_prompt (input_pos : option string) (fuel : nat)
    (inputs : list string) (cmd : Command P)
  : list (Event Item) * MdxAnswer P Item :=
  match prompt variant input_pos fuel inputs cmd with
  | AnsGenerator (evs, e) => (evs, MdxIter (iter_answer [] (yields evs)) e)
  | AnsPrompt (evs, Returned (Some item)) =>
      match item_iter item with
      | None => (evs, MdxList [item_id item])
      | Some elements => (evs, MdxIter (iter_answer [] elements) GenReturn)
      end
  | AnsPrompt (evs, Returned None) => (evs, MdxStop (Raised (AttributeError "id")))
  | AnsPrompt (evs, out) => (evs, MdxStop out)
  end.

End MangaDexCommand.

(** ** The paginator *)

(** Modelled from the spec: the [Paginator] class of [cli/utils.py], which
    the sources at hand only import. It wraps the items of the source and
    a page size; [next()] gives the page after the last one returned, up to
    [limit] pairs (position, item) where the position is the index in the
    source, and fails with [IteratorEmpty] when no item is left;
    [previous()] gives the page before the last one returned, fails with
    [IteratorEmpty] when there is none and with the out-of-range condition
    before any page was fetched. A failed call leaves the paginator as it
    was. *)
Record ListPaginator (Item : Type) := MkListPaginator {
  lp_items : list Item;
  lp_limit : nat;
  lp_page : option nat
}.
Arguments MkListPaginator {Item}.
Arguments lp_items {Item}.
Arguments lp_limit {Item}.
Arguments lp_page {Item}.

Definition page_of {Item : Type} (items : list Item) (limit k : nat)
  : list (nat * Item) :=
  let slice := take limit (drop (k * limit) items) in
  zip (seq (k * limit) (length slice)) slice.

Definition lp_next {Item : Type} (p : ListPaginator Item)
  : ListPaginator Item * Fetch Item :=
  let k := match lp_page p with None => 0 | Some k => S k end in
  match page_of (lp_items p) (lp_limit p) k with
  | [] => (p, MkFetch [] (Some IteratorEmpty))
  | page => (MkListPaginator (lp_items p) (lp_limit p) (Some k),
             MkFetch page None)
  end.

Definition lp_previous {Item : Type} (p : ListPaginator Item)
  : ListPaginator Item * Fetch Item :=
  match lp_page p with
  | None => (p, MkFetch [] (Some IndexError))
  | Some 0 => (p, MkFetch [] (Some IteratorEmpty))
  | Some (S k) =>
      (MkListPaginator (lp_items p) (lp_limit p) (Some k),
       MkFetch (page_of (lp_items p) (lp_limit p) k) None)
  end.

#[export] Instance ListPaginator_ops {Item : Type}
  : PaginatorOps (ListPaginator Item) Item :=
  {| pg_call a := match a with Next => lp_next | Previous => lp_previous end |}.

(** [BaseCommand.__init__]: [Paginator(iterator, limit)] and an empty
    [_text_choices]. *)
Definition new_command {Item : Type} (iterator : list Item) (limit : nat)
  : Command (ListPaginator Item) :=
  MkCommand (MkListPaginator iterator limit None) EmptyString.

(** Items for the examples: an id and a title. *)
Record Manga := MkManga { manga_id : string; manga_title : string }.

#[export] Instance Manga_item : ItemLike Manga :=
  {| item_id := manga_id; item_str := manga_title; item_iter := λ _, None |}.

Definition mA : Manga := MkManga "id-a" "A".
Definition mB : Manga := MkManga "id-b" "B".
Definition mC : Manga := MkManga "id-c" "C".
Definition mD : Manga := MkManga "id-d" "D".
Definition mE : Manga := MkManga "id-e" "E".
(** A second entry with the id of [mA]. *)
Definition mA' : Manga := MkManga "id-a" "A again".

(** [MangaCommand] and its descendants: preview is on; [on_empty_error]
    calls [args_parser.error]. *)
Definition MangaVariant (empty_msg : string) : Variant Manga :=
  MkVariant true (λ _, None) (Some empty_msg).

(** ** [SearchMangaCommand]: parsing the search filters *)

(** A filter value is what [split_comma_separated] returns: one string or a
    list of strings. *)
Inductive FilterValue :=
| FStr (s : string)
| FList (l : list string).

(** A value of the final keyword mapping: a filter value, or the mapping of
    the orderings stored under ["order"]. *)
Inductive Kwarg :=
| KValue (v : FilterValue)
| KOrders (orders : dict FilterValue).

Section SearchMangaCommand.
(** [get_key_value(f)] and [split_comma_separated(value, single_value_to_list)]
    of [cli/utils.py]. *)
Variable get_key_value : string → string * string.
Variable split_comma_separated : string → bool → FilterValue.

(** The elements [list.extend] takes from its argument: those of a list,
    the characters of a string. *)
Definition extended_by (v : FilterValue) : list string :=
  match v with
  | FList l => l
  | FStr s => (λ c, String c EmptyString) <$> String.list_ascii_of_string s
  end.

(** One turn of [for f in filters]. *)
Definition add_filter (filter_kwargs : dict FilterValue) (f : string)
  : dict FilterValue :=
  let '(key, value) := get_key_value f in
  match PyDict.get key filter_kwargs with
  | None => PyDict.set key (split_comma_separated value false) filter_kwargs
  | Some value_filter_kwargs =>
      let new_values :=
        match value_filter_kwargs with
        | FStr s => [s]
        | FList l => l
        end in
      let values := split_comma_separated value true in
      PyDict.set key (FList (new_values ++ extended_by values)) filter_kwargs
  end.

(** [for key in filter_kwargs.keys(): if 'order' in key: orders[key] = ...] *)
Definition collect_orders (filter_kwargs : dict FilterValue)
  : dict FilterValue :=
  foldl (λ orders key,
           if PyStr.contains "order" key then
             match PyDict.get key filter_kwargs with
             | Some v => PyDict.set key v orders
             | None => orders
             end
           else orders)
        [] (PyDict.keys filter_kwargs).

(** [for key in orders.keys(): filter_kwargs.pop(key)] *)
Definition remove_orders (orders filter_kwargs : dict FilterValue)
  : dict FilterValue :=
  foldl (λ fk key, PyDict.pop key fk) filter_kwargs (PyDict.keys orders).

(** [filter_kwargs['order'] = orders], after the two loops. *)
Definition assemble_filters (filter_kwargs : dict FilterValue) : dict Kwarg :=
  let orders := collect_orders filter_kwargs in
  let flat := remove_orders orders filter_kwargs in
  PyDict.set "order" (KOrders orders) (prod_map id KValue <$> flat).

(** The keyword mapping [SearchMangaCommand.__init__] passes to
    [IteratorManga]; [search_filter] is [args.search_filter]. *)
Definition search_filter_kwargs (search_filter : option (list string))
  : dict Kwarg :=
  let filters := default [] search_filter in
  assemble_filters (foldl add_filter [] filters).

End SearchMangaCommand.

(** Modelled from the spec: [get_key_value] of [cli/utils.py] on a
    [key=value] token, cut at the first [=]. *)
Definition get_key_value_model (text : string) : string * string :=
  match PyStr.split_once "=" text with
  | Some (key, value) => (key, value)
  | None => (text, EmptyString)
  end.

(** Modelled from the spec: [split_comma_separated] of [cli/utils.py]; a
    value is cut at its commas into a list, and a value without a comma is
    kept as it is unless [single_value_to_list] asks for a list. *)
Fixpoint split_commas (fuel : nat) (text : string) : list string :=
  match fuel, PyStr.split_once "," text with
  | S fuel', Some (before, after) => before :: split_commas fuel' after
  | _, _ => [text]
  end.

Definition split_comma_separated_model (text : string)
    (single_value_to_list : bool) : FilterValue :=
  if PyStr.contains "," text then FList (split_commas (String.length text) text)
  else if single_value_to_list then FList [text] else FStr text.

(** ** [CoverArt] *)

(** The Python values the constructor of [CoverArt] meets: the JSON of the
    API and [None]. *)
#[local] Unset Elimination Schemes.
Inductive PyVal :=
| PNone
| PBool (b : bool)
| PInt (n : Z)
| PStr (s : string)
| PList (l : list PyVal)
| PDict (d : list (string * PyVal)).
#[local] Set Elimination Schemes.

(** [bool(v)] *)
Definition truthy (v : PyVal) : bool :=
  match v with
  | PNone => false
  | PBool b => b
  | PInt n => negb (n =? 0)%Z
  | PStr s => negb (String.eqb s EmptyString)
  | PList l => match l with [] => false | _ => true end
  | PDict d => match d with [] => false | _ => true end
  end.

(** [v[k]] for a string [k]. *)
Definition getitem (v : PyVal) (k : string) : PyExn + PyVal :=
  match v with
  | PDict d =>
      match PyDict.get k d with
      | Some x => inr x
      | None => inl (KeyError k)
      end
  | _ => inl TypeError
  end.

#[export] Instance exn_bind : MBind (sum PyExn) :=
  λ A B f x, match x with inl e => inl e | inr a => f a end.

Record CoverArt (Lang : Type) := MkCoverArt {
  ca_data : PyVal;
  ca_id : PyVal;
  ca_description : PyVal;
  ca_volume : PyVal;
  ca_file : PyVal;
  ca_locale : Lang
}.
Arguments MkCoverArt {Lang}.
Arguments ca_data {Lang}.
Arguments ca_id {Lang}.
Arguments ca_description {Lang}.
Arguments ca_volume {Lang}.
Arguments ca_file {Lang}.
Arguments ca_locale {Lang}.

Section CoverArt.
Context {Lang : Type}.
(** [fetcher.get_cover_art] (the response of the API for a cover id) and
    [language.get_language]. *)
Variable get_cover_art : PyVal → PyExn + PyVal.
Variable get_language : PyVal → PyExn + Lang.

(** The assignments of [__init__] after [self.data] is set. *)
Definition CoverArt_fields (data : PyVal) : PyExn + CoverArt Lang :=
  id ← getitem data "id";
  attr ← getitem data "attributes";
  description ← getitem attr "description";
  volume ← getitem attr "volume";
  file ← getitem attr "fileName";
  raw_locale ← getitem attr "locale";
  locale ← get_language raw_locale;
  inr (MkCoverArt data id description volume file locale).

(** [CoverArt.__init__(cover_id, data)]: the cover ids [get_cover_art] was
    called with, and the object built or the exception raised. *)
Definition CoverArt_init (cover_id data : PyVal)
  : list PyVal * (PyExn + CoverArt Lang) :=
  if negb (truthy data) then
    ([cover_id],
     response ← get_cover_art cover_id;
     fetched ← getitem response "data";
     CoverArt_fields fetched)
  else ([], CoverArt_fields data).

(** The fields of [c] are those of the mapping [data]. *)
Definition maps_fields (data : PyVal) (c : CoverArt Lang) : Prop :=
  ca_data c = data ∧
  getitem data "id" = inr (ca_id c) ∧
  ∃ attr raw_locale,
    getitem data "attributes" = inr attr ∧
    getitem attr "description" = inr (ca_description c) ∧
    getitem attr "volume" = inr (ca_volume c) ∧
    getitem attr "fileName" = inr (ca_file c) ∧
    getitem attr "locale" = inr raw_locale ∧
    get_language raw_locale = inr (ca_locale c).

End CoverArt.

(** ** Notions the properties are stated with *)

Definition is_digit (c : ascii) : bool :=
  (48 <=? nat_of_ascii c) && (nat_of_ascii c <=? 57).

(** A choice set all of whose labels are labels of positions. *)
Definition labels_numeric {V : Type} (ch : dict V) : Prop :=
  Forall (λ k, ∃ n : nat, k = pretty n) (PyDict.keys ch).

(** Each value once, at the place of its first occurrence. *)
Fixpoint first_seen (l : list string) : list string :=
  match l with
  | [] => []
  | x :: l' => x :: filter (λ y, y ≠ x) (first_seen l')
  end.

(** The entries of the items [l] found at the positions [off], [off+1], ... *)
Definition labelled_from {Item : Type} (off : nat) (l : list Item) : dict Item :=
  zip (pretty <$> seq off (length l)) l.

(** The number of pages of [len] items. *)
Definition num_pages (len limit : nat) : nat := (len + limit - 1) / limit.

(** The state of a direct lookup once the pages [0..j] are fetched. *)
Definition cmd_at {Item : Type} (items : list Item) (limit j : nat)
    (text : string)
  : Command (ListPaginator Item) :=
  MkCommand (MkListPaginator items limit (Some j)) text.

Definition ch_at {Item : Type} (items : list Item) (limit j : nat)
  : dict Item :=
  labelled_from 0 (take (S j * limit) items).

(** The choice set [ch] holds items of the source, each under the label of
    its own position. *)
Definition from_source {Item : Type} (items : list Item) (ch : dict Item)
  : Prop :=
  ∀ label item, PyDict.get label ch = Some item →
    ∃ i : nat, label = pretty i ∧ items !! i = Some item.

(** The inputs the scenarios use. *)
Definition five : list Manga := [mA; mB; mC; mD; mE].
Definition page1 : string := "(0). A" +:+ nl +:+ "(1). B" +:+ nl.
Definition page2 : string := "(2). C" +:+ nl +:+ "(3). D" +:+ nl.
Definition page3 : string := "(4). E" +:+ nl.

(** The session of [BaseCommand] on [five], two items a page, once the
    lines [inputs] are read and the loop waits for the next one. *)
Definition session_after (inputs : list string)
  : option (Session (ListPaginator Manga) Manga) :=
  match prompt_interactive BaseVariant (new_command five 2) inputs with
  | (_, Waiting s) => Some s
  | _ => None
  end.

(** ** The command variants and the rest of the parsing *)

(** The line [_insert_choices] adds to the text for one pair. *)
Definition choice_line {Item : Type} `{!ItemLike Item} (p : nat * Item)
  : string :=
  "(" +:+ pretty p.1 +:+ "). " +:+ item_str p.2 +:+ nl.

(** The double quote of the messages. *)
Definition dq : string := String (ascii_of_nat 34) EmptyString.

(** The six classes of [registered_commands], each with the name its
    messages show: the search text, the name of the user, the name of the group. *)
Inductive CommandKind :=
| SearchMangaCommand (input_text : string)
| MangaLibraryCommand (user_name : string)
| ListLibraryCommand (user_name : string)
| FollowedListLibraryCommand (user_name : string)
| RandomMangaCommand
| GroupMangaCommand (group_name : string).

(** The message each [on_empty_error] hands to [args_parser.error]. *)
Definition empty_message (k : CommandKind) : string :=
  match k with
  | SearchMangaCommand input_text =>
      "Manga search results for " +:+ dq +:+ input_text +:+ dq +:+ " are empty"
  | MangaLibraryCommand user_name => "User " +:+ dq +:+ user_name +:+ dq
  | ListLibraryCommand user_name =>
      "User " +:+ dq +:+ user_name +:+ " has no saved lists" +:+ dq
  | FollowedListLibraryCommand user_name =>
      "User " +:+ dq +:+ user_name +:+ dq +:+ " has no followed lists"
  | RandomMangaCommand => "Unknown error when fetching random manga"
  | GroupMangaCommand group_name =>
      "Group " +:+ dq +:+ group_name +:+ dq +:+ " has no uploaded mangas"
  end.

(** The [limit] each class passes to [BaseCommand.__init__]. *)
Definition command_limit (k : CommandKind) : nat :=
  match k with
  | RandomMangaCommand => 5
  | _ => 10
  end.

(** The methods of a registered class: all of them descend from
    [MangaCommand] or [MDListCommand], whose [preview()] is [True] and whose
    [on_preview] is [preview_cover_manga] or [preview_list] (here
    [on_preview], which may raise). *)
Definition command_variant {Item : Type} (on_preview : Item → option PyExn)
    (k : CommandKind) : Variant Item :=
  MkVariant true on_preview (Some (empty_message k)).

(** What the parsing of the content ratings of [RandomMangaCommand] gives:
    the ratings for [iter_random_manga], the [IndexError] of
    [content_ratings[0]] on an empty result, or the [MangaDexException]
    made of the [ValueError] of [ContentRating(i)]. *)
Inductive Ratings :=
| RatingsOk (content_ratings : list string)
| RatingsIndexError
| RatingsInvalid (value : string).

Section RandomMangaCommand.
(** [get_key_value(text, sep)] and [split_comma_separated] of [cli/utils.py],
    and the values of the enum [ContentRating] of [manga.py] in the order of
    its members. *)
Variable get_key_value_sep : string → string → string * string.
Variable split_comma_separated : string → bool → FilterValue.
Variable content_rating_values : list string.

(** [[ContentRating(i).value for i in content_ratings]]: the first value that
    is not one of the enum raises. *)
Fixpoint verify_ratings (content_ratings : list string) : Ratings :=
  match content_ratings with
  | [] => RatingsOk []
  | i :: rest =>
      if decide (i ∈ content_rating_values) then
        match verify_ratings rest with
        | RatingsOk l => RatingsOk (i :: l)
        | failure => failure
        end
      else RatingsInvalid i
  end.

(** The content ratings [RandomMangaCommand.__init__] computes from
    [input_text]. *)
Definition random_content_ratings (input_text : string) : Ratings :=
  let '(_, raw_cr) := get_key_value_sep input_text ":" in
  let content_ratings := split_comma_separated raw_cr true in
  match extended_by content_ratings with
  | [] => RatingsIndexError
  | first :: _ =>
      if decide (first = EmptyString) then RatingsOk content_rating_values
      else verify_ratings (extended_by content_ratings)
  end.

End RandomMangaCommand.

Section filter_values.
Variable get_key_value : string → string * string.
Variable split_comma_separated : string → bool → FilterValue.

(** The values the filters give for [key], in the order of the filters. *)
Definition values_for (key : string) (filters : list string) : list string :=
  omap (λ f, let '(k, v) := get_key_value f in
             if decide (k = key) then Some v else None) filters.

(** A filter value as the list [new_values] starts from. *)
Definition as_list (v : FilterValue) : list string :=
  match v with
  | FStr s => [s]
  | FList l => l
  end.

(** What the values of one key add up to: nothing without a value, the
    split of a single value, and for several values the list that starts
    with the first one and is extended by the split of each later one. *)
Definition accumulated (values : list string) : option FilterValue :=
  match values with
  | [] => None
  | v :: [] => Some (split_comma_separated v false)
  | v :: later =>
      Some (FList (as_list (split_comma_separated v false)
                   ++ concat ((λ w, extended_by (split_comma_separated w true))
                                <$> later)))
  end.

End filter_values.

(** All the characters of [s] are white space. *)
Fixpoint all_space (s : string) : bool :=
  match s with
  | EmptyString => true
  | String c s' => PyStr.isspace c && all_space s'
  end.

Fixpoint all_digits (s : string) : bool :=
  match s with
  | EmptyString => true
  | String c s' => is_digit c && all_digits s'
  end.



(** What a wildcard lookup over [items] does in [count] turns of its loop
    from turn [from] on: in turn [j] it has the pages [0..j], yields all
    their items and asks for the next page. *)
Definition wildcard_turns {Item : Type} (items : list Item)
    (limit from count : nat) : list (Event Item) :=
  concat ((λ j, (EvYield <$> take (S j * limit) items) ++ [EvFetch Next])
            <$> seq from count).

(** An event of the interactive loop only: the choices shown, a preview. *)
Definition prompt_event {Item : Type} (e : Event Item) : bool :=
  match e with
  | EvPrintChoices _ | EvPreview _ => true
  | _ => false
  end.

Definition fetch_event {Item : Type} (e : Event Item) : bool :=
  match e with
  | EvFetch _ => true
  | _ => false
  end.

(** A response of the API for a cover, and a [get_language] that takes the
    code as the language. *)
Definition sample_cover : PyVal :=
  PDict [("id", PStr "cover-1");
         ("attributes",
          PDict [("description", PStr ""); ("volume", PStr "1");
                 ("fileName", PStr "cover.jpg"); ("locale", PStr "ja")])].

Definition sample_get_cover_art (cover_id : PyVal) : PyExn + PyVal :=
  inr (PDict [("result", PStr "ok"); ("data", sample_cover)]).

Definition sample_get_language (v : PyVal) : PyExn + string :=
  match v with
  | PStr code => inr code
  | _ => inl TypeError
  end.

(** * Properties *)

(** ** Dictionaries *)

Section dict_facts.
Context {V : Type}.
Implicit Types (d : dict V) (k : string) (v : V).

Lemma get_set_eq k v d : PyDict.get k (PyDict.set k v d) = Some v.
Proof.
  induction d as [|[k' v'] d IH]; simpl.
  - by rewrite decide_True.
  - destruct (decide (k = k')) as [->|Hne]; simpl.
    + by rewrite decide_True.
    + by rewrite decide_False.
Qed.

Lemma get_set_ne k k' v d :
  k ≠ k' → PyDict.get k' (PyDict.set k v d) = PyDict.get k' d.
Proof.
  intros Hne. induction d as [|[k0 v0] d IH]; simpl.
  - by rewrite decide_False.
  - destruct (decide (k = k0)) as [->|Hk]; simpl.
    + by rewrite !decide_False.
    + destruct (decide (k' = k0)); auto.
Qed.

Lemma get_None_keys k d : PyDict.get k d = None ↔ k ∉ PyDict.keys d.
Proof.
  unfold PyDict.keys. induction d as [|[k' v'] d IH]; csimpl.
  - split; [intros _; apply not_elem_of_nil | done].
  - rewrite not_elem_of_cons. destruct (decide (k = k')); [|tauto].
    split; [done | by intros [? _]].
Qed.

Lemma get_Some_keys k v d : PyDict.get k d = Some v → k ∈ PyDict.keys d.
Proof.
  intros Hg. destruct (decide (k ∈ PyDict.keys d)) as [|Hn]; [done|].
  apply get_None_keys in Hn. congruence.
Qed.

(** A new key goes last. *)
Lemma set_fresh k v d : PyDict.get k d = None → PyDict.set k v d = d ++ [(k, v)].
Proof.
  induction d as [|[k' v'] d IH]; simpl; [done|].
  destruct (decide (k = k')); [done|]. intros Hg. by rewrite IH.
Qed.

(** A bound key keeps its place. *)
Lemma keys_set_bound k v d :
  is_Some (PyDict.get k d) → PyDict.keys (PyDict.set k v d) = PyDict.keys d.
Proof.
  unfold PyDict.keys. induction d as [|[k' v'] d IH]; simpl.
  - by intros [? ?].
  - destruct (decide (k = k')) as [->|]; csimpl; [done|].
    intros Hs. f_equal. by apply IH.
Qed.

Lemma keys_set k v d : PyDict.keys d `prefix_of` PyDict.keys (PyDict.set k v d).
Proof.
  destruct (PyDict.get k d) as [v0|] eqn:Hg.
  - rewrite keys_set_bound; [done | by eexists].
  - rewrite set_fresh by done. unfold PyDict.keys. rewrite fmap_app.
    by apply prefix_app_r.
Qed.

Lemma get_pop_eq k d : NoDup (PyDict.keys d) → PyDict.get k (PyDict.pop k d) = None.
Proof.
  unfold PyDict.keys. induction d as [|[k' v'] d IH]; csimpl; [done|].
  rewrite NoDup_cons. intros [Hnotin Hnd].
  destruct (decide (k = k')) as [->|Hne]; simpl.
  - by apply get_None_keys.
  - rewrite decide_False by done. by apply IH.
Qed.

Lemma get_pop_ne k k' d : k ≠ k' → PyDict.get k' (PyDict.pop k d) = PyDict.get k' d.
Proof.
  intros Hne. induction d as [|[k0 v0] d IH]; simpl; [done|].
  destruct (decide (k = k0)) as [->|Hk]; simpl.
  - by rewrite decide_False.
  - destruct (decide (k' = k0)); auto.
Qed.

Lemma keys_pop_sublist k d : PyDict.keys (PyDict.pop k d) `sublist_of` PyDict.keys d.
Proof.
  unfold PyDict.keys. induction d as [|[k' v'] d IH]; csimpl; [done|].
  destruct (decide (k = k')); csimpl.
  - by apply sublist_cons.
  - by apply sublist_skip.
Qed.

Lemma NoDup_keys_pop k d : NoDup (PyDict.keys d) → NoDup (PyDict.keys (PyDict.pop k d)).
Proof. intros Hnd. eapply sublist_NoDup; eauto using keys_pop_sublist. Qed.

Lemma NoDup_keys_set k v d : NoDup (PyDict.keys d) → NoDup (PyDict.keys (PyDict.set k v d)).
Proof.
  intros Hnd. destruct (PyDict.get k d) as [v0|] eqn:Hg.
  - rewrite keys_set_bound; [done | by eexists].
  - rewrite set_fresh by done. unfold PyDict.keys. rewrite fmap_app.
    apply NoDup_app. split; [done|]. split; [|apply NoDup_singleton].
    intros x Hx Hx'. apply list_elem_of_singleton in Hx' as ->.
    by apply get_None_keys in Hg.
Qed.

End dict_facts.

(** ** Labels: [str(pos)] *)


Lemma pretty_N_char_digit x : is_digit (pretty_N_char x) = true.
Proof. unfold pretty_N_char. by repeat case_match. Qed.

Lemma pretty_N_go_head x s :
  (0 < x)%N → ∃ c rest, pretty_N_go x s = String c rest ∧ is_digit c = true.
Proof.
  revert s. induction (N.lt_wf_0 x) as [x _ IH]; intros s Hx.
  rewrite pretty_N_go_step by done.
  destruct (decide (x `div` 10 = 0)%N) as [->|Hq].
  - rewrite pretty_N_go_0. eauto using pretty_N_char_digit.
  - apply IH; [apply N.div_lt; lia | by apply N.neq_0_lt_0].
Qed.

(** The label of a position starts with a decimal digit. *)
Lemma label_head (n : nat) :
  ∃ c rest, pretty n = String c rest ∧ is_digit c = true.
Proof.
  unfold pretty, pretty_nat, pretty, pretty_N.
  case_decide; [by exists "0"%char, EmptyString|].
  apply pretty_N_go_head. lia.
Qed.

Lemma startswith_head s c pre :
  PyStr.startswith s (String c pre) = true → ∃ rest, s = String c rest.
Proof.
  destruct s as [|c' s]; simpl; [done|].
  case_decide; [subst; eauto | done].
Qed.

Lemma label_not_command (n : nat) c pre :
  is_digit c = false → PyStr.startswith (pretty n) (String c pre) = false.
Proof.
  intros Hc. destruct (PyStr.startswith _ _) eqn:Hs; [|done].
  apply startswith_head in Hs as [rest Hs].
  destruct (label_head n) as (c' & rest' & Heq & Hd). congruence.
Qed.

Lemma label_not_star (n : nat) : pretty n ≠ "*".
Proof.
  intros Heq. destruct (label_head n) as (c & rest & Heq' & Hd).
  rewrite Heq in Heq'. by injection Heq' as <- <-.
Qed.


Lemma labels_numeric_set {V : Type} (n : nat) (v : V) (ch : dict V) :
  labels_numeric ch → labels_numeric (PyDict.set (pretty n) v ch).
Proof.
  unfold labels_numeric. intros Hch.
  destruct (PyDict.get (pretty n) ch) eqn:Hg.
  - rewrite keys_set_bound; [done | by eexists].
  - rewrite set_fresh by done. unfold PyDict.keys in *. rewrite fmap_app.
    apply Forall_app. split; [done|]. apply Forall_singleton. by exists n.
Qed.

Lemma labels_numeric_get {V : Type} (ch : dict V) k v :
  labels_numeric ch → PyDict.get k ch = Some v → ∃ n : nat, k = pretty n.
Proof.
  intros Hch Hg. apply get_Some_keys in Hg.
  by apply (proj1 (Forall_forall _ _) Hch).
Qed.

(** ** The prompt loop over any paginator *)

Section engine_facts.
Context {P Item : Type} `{!PaginatorOps P Item, !ItemLike Item}.
Variable variant : Variant Item.
Implicit Types (s : Session P Item) (ch : dict Item) (cmd : Command P).

(** What the [for] loop of [_insert_choices] does to the choice set. *)
Lemma insert_pairs_grow (page : list (nat * Item)) ch text :
  let ch' := (foldl insert_pair (ch, text) page).1 in
  PyDict.keys ch `prefix_of` PyDict.keys ch' ∧
  (labels_numeric ch → labels_numeric ch') ∧
  ∀ label item, PyDict.get label ch = Some item →
    ∃ item', PyDict.get label ch' = Some item' ∧
      (item' = item ∨ ∃ pos, (pos, item') ∈ page ∧ label = pretty pos).
Proof.
  revert ch text. induction page as [|[pos x] page IH]; intros ch text; simpl.
  - split; [done|]. split; [done|]. eauto.
  - destruct (IH (PyDict.set (pretty pos) x ch)
      (text +:+ "(" +:+ pretty pos +:+ "). " +:+ item_str x +:+ nl))
      as (Hk & Hn & Hv).
    split; [etrans; [apply keys_set | apply Hk]|].
    split; [intros Hch; by apply Hn, labels_numeric_set|].
    intros label item Hg.
    destruct (decide (pretty pos = label)) as [<-|Hne].
    + destruct (Hv (pretty pos) x) as (item' & Hg' & Hor);
        [apply get_set_eq|].
      exists item'. split; [done|]. right.
      destruct Hor as [->|(pos' & Hin & Heq)].
      * exists pos. split; [apply list_elem_of_here | done].
      * exists pos'. split; [by apply list_elem_of_further | done].
    + destruct (Hv label item) as (item' & Hg' & Hor);
        [by rewrite get_set_ne|].
      exists item'. split; [done|].
      destruct Hor as [->|(pos' & Hin & Heq)]; [by left|].
      right. exists pos'. split; [by apply list_elem_of_further | done].
Qed.

Lemma _insert_choices_grow a cmd ch cmd' ch' err :
  _insert_choices a cmd ch = (cmd', ch', err) →
  PyDict.keys ch `prefix_of` PyDict.keys ch' ∧
  (labels_numeric ch → labels_numeric ch') ∧
  ∀ label item, PyDict.get label ch = Some item →
    ∃ item', PyDict.get label ch' = Some item' ∧
      (item' = item ∨
       ∃ pos, (pos, item') ∈ delivered (pg_call a (paginator cmd)).2
              ∧ label = pretty pos).
Proof.
  unfold _insert_choices. destruct (pg_call a (paginator cmd)) as [pg f].
  pose proof (insert_pairs_grow (delivered f) ch EmptyString) as Hgrow.
  destruct (foldl insert_pair (ch, EmptyString) (delivered f)) as [ch1 text].
  simpl in *. destruct (raised f); intros [= <- <- <-]; exact Hgrow.
Qed.

(** A step of the loop that goes on either leaves the choice set alone or
    is one call of [_insert_choices] on it. *)
Lemma dispatch_continue answer s evs s' :
  dispatch variant answer s = (evs, inr s') →
  (self s' = self s ∧ choices s' = choices s) ∨
  ∃ a err, _insert_choices a (self s) (choices s) = (self s', choices s', err).
Proof.
  unfold dispatch, fetch_reporting. intros Hd.
  repeat (case_match; simplify_eq/=); eauto.
Qed.

(** Where the entries of the choice set come from. *)
Lemma insert_pairs_origin (page : list (nat * Item)) ch text label item :
  PyDict.get label (foldl insert_pair (ch, text) page).1 = Some item →
  PyDict.get label ch = Some item ∨
  ∃ pos, (pos, item) ∈ page ∧ label = pretty pos.
Proof.
  revert ch text. induction page as [|[pos x] page IH]; intros ch text; simpl.
  - by left.
  - intros [Hg|(pos' & Hin & ->)]%IH.
    + destruct (decide (pretty pos = label)) as [<-|Hne].
      * rewrite get_set_eq in Hg. injection Hg as ->.
        right. exists pos. split; [left | done].
      * rewrite get_set_ne in Hg by done. by left.
    + right. exists pos'. split; [by right | done].
Qed.

Lemma _insert_choices_origin a cmd ch cmd' ch' err label item :
  _insert_choices a cmd ch = (cmd', ch', err) →
  PyDict.get label ch' = Some item →
  paginator cmd' = (pg_call a (paginator cmd)).1 ∧
  (PyDict.get label ch = Some item ∨
   ∃ pos, (pos, item) ∈ delivered (pg_call a (paginator cmd)).2
          ∧ label = pretty pos).
Proof.
  unfold _insert_choices. destruct (pg_call a (paginator cmd)) as [pg f].
  pose proof (insert_pairs_origin (delivered f) ch EmptyString label item)
    as Horigin.
  destruct (foldl insert_pair (ch, EmptyString) (delivered f)) as [ch1 text].
  simpl in *. destruct (raised f); intros [= <- <- <-]; auto.
Qed.

Lemma _insert_choices_raised a cmd ch :
  (_insert_choices a cmd ch).2 = raised (pg_call a (paginator cmd)).2.
Proof.
  unfold _insert_choices. destruct (pg_call a (paginator cmd)) as [pg f].
  simpl. destruct (foldl _ _ _) as [ch' text]. by destruct (raised f).
Qed.

(** A step of the loop that goes on never deletes or moves a label. *)
Lemma dispatch_keys_grow answer s evs s' :
  dispatch variant answer s = (evs, inr s') →
  PyDict.keys (choices s) `prefix_of` PyDict.keys (choices s').
Proof.
  intros Hd. apply dispatch_continue in Hd as [[_ ->]|(a & err & Hins)].
  - done.
  - by apply _insert_choices_grow in Hins as (Hk & _ & _).
Qed.

Lemma dispatch_labels_numeric answer s evs s' :
  dispatch variant answer s = (evs, inr s') →
  labels_numeric (choices s) → labels_numeric (choices s').
Proof.
  intros Hd. apply dispatch_continue in Hd as [[_ ->]|(a & err & Hins)].
  - done.
  - by apply _insert_choices_grow in Hins as (_ & Hn & _).
Qed.

(** Entering a label of the choice set returns its item at once. *)
Lemma dispatch_label label item s :
  labels_numeric (choices s) →
  PyDict.get label (choices s) = Some item →
  dispatch variant label s = ([], inl (Returned (Some item))).
Proof.
  intros Hch Hg. destruct (labels_numeric_get _ _ _ Hch Hg) as [n ->].
  unfold dispatch. rewrite !label_not_command by done. simpl. by rewrite Hg.
Qed.

Lemma dispatch_not_waiting answer s evs s' :
  dispatch variant answer s ≠ (evs, inl (Waiting s')).
Proof.
  unfold dispatch, fetch_reporting. intros Hd.
  repeat (case_match; simplify_eq/=).
Qed.

(** A run that waits for input continues with whatever is typed next. *)
Lemma prompt_loop_waiting inputs s evs s' :
  prompt_loop variant inputs s = (evs, Waiting s') →
  (labels_numeric (choices s) → labels_numeric (choices s')) ∧
  ∃ evs0, evs = evs0 ++ [EvPrintChoices (_text_choices (self s'))] ∧
    ∀ more, prompt_loop variant (inputs ++ more) s
            = (evs0 ++ (prompt_loop variant more s').1,
               (prompt_loop variant more s').2).
Proof.
  revert s evs. induction inputs as [|answer inputs IH]; intros s evs; simpl.
  - intros [= <- <-]. split; [done|]. exists []. split; [done|].
    intros more. by destruct (prompt_loop variant more s).
  - destruct (dispatch variant answer s) as [devs [out|s1]] eqn:Hd.
    { intros [= <- ->]. by apply dispatch_not_waiting in Hd. }
    destruct (prompt_loop variant inputs s1) as [evs1 out1] eqn:Hl.
    intros [= <- ->]. destruct (IH _ _ Hl) as (Hn & evs0 & -> & Hmore).
    split; [eauto using dispatch_labels_numeric|].
    exists (EvPrintChoices (_text_choices (self s)) :: devs ++ evs0).
    split; [by rewrite <-app_comm_cons, app_assoc|].
    intros more. rewrite Hmore. simpl. by rewrite app_assoc.
Qed.

Lemma prompt_interactive_waiting cmd inputs evs s :
  prompt_interactive variant cmd inputs = (evs, Waiting s) →
  labels_numeric (choices s) ∧
  ∃ evs0, evs = evs0 ++ [EvPrintChoices (_text_choices (self s))] ∧
    ∀ more, prompt_interactive variant cmd (inputs ++ more)
            = (evs0 ++ (prompt_loop variant more s).1,
               (prompt_loop variant more s).2).
Proof.
  unfold prompt_interactive.
  destruct (_insert_choices Next cmd []) as [[cmd' ch] err] eqn:Hins.
  apply _insert_choices_grow in Hins as (_ & Hn & _).
  destruct err as [[| |name]|].
  - simpl. by destruct (on_empty_error variant).
  - done.
  - done.
  - destruct (prompt_loop variant inputs _) as [evs1 out] eqn:Hl.
    intros [= <- ->]. apply prompt_loop_waiting in Hl as (Hn' & evs0 & -> & Hmore).
    split; [apply Hn', Hn; constructor|].
    exists (EvFetch Next :: evs0). split; [done|].
    intros more. by rewrite Hmore.
Qed.

(** C4. In any session, once the loop waits for input with a choice set
    that binds [label] to [item], entering exactly [label] makes the prompt
    return [item]; the events of the run are those before the line was
    read, so no page is fetched in between. *)
Theorem visible_label_returns_item cmd inputs evs s label item :
  prompt_interactive variant cmd inputs = (evs, Waiting s) →
  PyDict.get label (choices s) = Some item →
  prompt_interactive variant cmd (inputs ++ [label])
  = (evs, Returned (Some item)).
Proof.
  intros Hrun Hg.
  apply prompt_interactive_waiting in Hrun as (Hn & evs0 & -> & Hmore).
  rewrite Hmore. simpl. by rewrite (dispatch_label _ _ _ Hn Hg).
Qed.

(** *** Which lines the loop accepts *)

Lemma startswith_cons (txt : string) c pre :
  PyStr.startswith txt (String c pre) = true
  ↔ ∃ rest, txt = String c rest ∧ PyStr.startswith rest pre = true.
Proof.
  destruct txt as [|c' txt]; simpl.
  - split; [done | by intros (? & ? & _)].
  - case_decide as Hc.
    + subst. split; [eauto|]. by intros (rest & [= <-] & ?).
    + split; [done|]. intros (rest & [= ? _] & _). congruence.
Qed.

Lemma split_once_prefix sep (txt : string) :
  PyStr.startswith txt sep = true →
  PyStr.split_once sep txt
  = Some (EmptyString, PyStr.drop (String.length sep) txt).
Proof. intros Hs. destruct txt; cbn [PyStr.split_once]; by rewrite Hs. Qed.

(** A line cannot start with two of the three commands. *)
Lemma commands_exclusive answer :
  (PyStr.startswith answer "next" = true →
   PyStr.startswith answer "preview" = false
   ∧ PyStr.startswith answer "previous" = false) ∧
  (PyStr.startswith answer "previous" = true →
   PyStr.startswith answer "preview" = false).
Proof.
  split.
  - intros (rest & -> & _)%startswith_cons. done.
  - intros Hp. destruct (PyStr.startswith answer "preview") eqn:Hv; [|done].
    repeat (apply startswith_cons in Hp as (? & -> & Hp)).
    repeat (apply startswith_cons in Hv as (? & [= <-] & Hv)); done.
Qed.



Lemma dispatch_preview answer s :
  taken_as_preview variant answer = true →
  dispatch variant answer s =
    match PyDict.get (preview_label answer) (choices s) with
    | None => ([_error "Invalid choice, try again"], inr s)
    | Some item =>
        ([EvPreview item],
         match on_preview variant item with
         | Some e => inl (Raised e)
         | None => inr s
         end)
    end.
Proof.
  unfold taken_as_preview, dispatch. intros Ht. rewrite Ht.
  apply andb_true_iff in Ht as [Hs _]. rewrite (split_once_prefix _ _ Hs).
  unfold preview_label. simpl. by repeat case_match.
Qed.

(** A fetch in the loop starts with its event and never returns an item. *)
Lemma fetch_reporting_shape a s :
  ∃ evs next, fetch_reporting a s = (EvFetch a :: evs, next)
              ∧ ∀ r, next ≠ inl (Returned r).
Proof.
  unfold fetch_reporting.
  destruct (_insert_choices _ _ _) as [[? ?] [[| |name]|]]; by eexists _, _.
Qed.

Lemma dispatch_navigation answer s a :
  taken_as_preview variant answer = false →
  PyStr.startswith answer (match a with Next => "next" | Previous => "previous" end)
    = true →
  ∃ evs next, dispatch variant answer s = (EvFetch a :: evs, next)
              ∧ ∀ r, next ≠ inl (Returned r).
Proof.
  unfold taken_as_preview, dispatch. intros -> Hs.
  destruct a.
  - rewrite Hs. simpl.
    destruct (fetch_reporting_shape Next (MkSession (self s) (choices s) (Some Next)))
      as (evs & next & -> & Hr). eauto.
  - destruct (commands_exclusive answer) as [Hn _].
    destruct (PyStr.startswith answer "next"); [destruct Hn; congruence|].
    rewrite Hs. simpl.
    destruct (fetch_reporting_shape Previous
                (MkSession (self s) (choices s) (Some Previous)))
      as (evs & next & -> & Hr). eauto.
Qed.

Lemma dispatch_other answer s :
  taken_as_preview variant answer = false →
  PyStr.startswith answer "next" = false →
  PyStr.startswith answer "previous" = false →
  match PyDict.get answer (choices s) with
  | Some item => dispatch variant answer s = ([], inl (Returned (Some item)))
  | None =>
      match action s with
      | None =>
          dispatch variant answer s
          = ([_error "Invalid choice, try again"],
             inl (Raised (UnboundLocalError "action")))
      | Some a =>
          ∃ evs next,
            dispatch variant answer s
            = (_error "Invalid choice, try again" :: EvFetch a :: evs, next)
            ∧ ∀ r, next ≠ inl (Returned r)
      end
  end.
Proof.
  unfold taken_as_preview, dispatch. intros -> -> ->.
  destruct (PyDict.get answer (choices s)); [done|].
  destruct (action s) as [a|]; simpl; [|done].
  destruct (fetch_reporting_shape a s) as (evs & next & -> & Hr). eauto.
Qed.


Lemma preview_not_navigation answer a :
  taken_as_preview variant answer = true →
  PyStr.startswith answer (command_word a) = false.
Proof.
  unfold taken_as_preview. intros [Hv _]%andb_true_iff.
  destruct (commands_exclusive answer) as [Hn Hp].
  destruct (PyStr.startswith answer (command_word a)) eqn:Hs; [|done].
  destruct a; simpl in Hs; [destruct (Hn Hs) | pose proof (Hp Hs)]; congruence.
Qed.

#[local] Ltac settle_iff :=
  first [naive_solver congruence
        | split; intros; simplify_eq; congruence
        | split; intros; exfalso; naive_solver].

(** C8, as the code has it. What the loop does with a line is decided by
    how the line starts: it is a preview request exactly when the variant
    supports preview and the line starts with "preview" (the label is the
    rest of the line, stripped); it fetches the next or the previous page
    exactly when the line starts with "next" or with "previous"; it returns
    an item exactly when the line is none of these and is a label of the
    choice set; and it reports an invalid choice exactly for a preview
    request whose label is unknown and for a line that is none of these
    and is not a label. *)
Theorem accepted_lines answer s :
  let evs := (dispatch variant answer s).1 in
  let out := (dispatch variant answer s).2 in
  (∀ item, head evs = Some (EvPreview item)
     ↔ taken_as_preview variant answer = true
       ∧ PyDict.get (preview_label answer) (choices s) = Some item) ∧
  (∀ a, head evs = Some (EvFetch a)
     ↔ PyStr.startswith answer (command_word a) = true) ∧
  (∀ item, out = inl (Returned (Some item))
     ↔ taken_as_preview variant answer = false
       ∧ PyStr.startswith answer "next" = false
       ∧ PyStr.startswith answer "previous" = false
       ∧ PyDict.get answer (choices s) = Some item) ∧
  (head evs = Some (_error "Invalid choice, try again")
     ↔ (taken_as_preview variant answer = true
        ∧ PyDict.get (preview_label answer) (choices s) = None)
       ∨ (taken_as_preview variant answer = false
          ∧ PyStr.startswith answer "next" = false
          ∧ PyStr.startswith answer "previous" = false
          ∧ PyDict.get answer (choices s) = None)).
Proof.
  cbv zeta. unfold _error. destruct (taken_as_preview variant answer) eqn:Ht.
  - pose proof (preview_not_navigation answer Next Ht) as Hn.
    pose proof (preview_not_navigation answer Previous Ht) as Hp.
    simpl in Hn, Hp. rewrite (dispatch_preview _ _ Ht).
    destruct (PyDict.get (preview_label answer) (choices s)) as [item|];
      [destruct (on_preview variant item)|]; simpl;
      (split_and!; [intros ?|intros [|]|intros ?|]; simpl; settle_iff).
  - destruct (PyStr.startswith answer "next") eqn:Hn.
    { destruct (commands_exclusive answer) as [Hx _].
      destruct (Hx Hn) as [_ Hp].
      destruct (dispatch_navigation answer s Next Ht Hn)
        as (evs & next & -> & Hr).
      simpl. split_and!; [intros ?|intros [|]|intros ?|]; simpl; settle_iff. }
    destruct (PyStr.startswith answer "previous") eqn:Hp.
    { destruct (dispatch_navigation answer s Previous Ht Hp)
        as (evs & next & -> & Hr).
      simpl. split_and!; [intros ?|intros [|]|intros ?|]; simpl; settle_iff. }
    pose proof (dispatch_other answer s Ht Hn Hp) as Ho.
    destruct (PyDict.get answer (choices s)) as [item|].
    + rewrite Ho. simpl.
      split_and!; [intros ?|intros [|]|intros ?|]; simpl; settle_iff.
    + destruct (action s); [destruct Ho as (evs & next & -> & Hr)|rewrite Ho];
        simpl;
        (split_and!; [intros ?|intros [|]|intros ?|]; simpl; settle_iff).
Qed.

(** *** Identities without repetition *)


Lemma filter_all {A} (Q : A → Prop) `{!∀ x, Decision (Q x)} (l : list A) :
  (∀ x, x ∈ l → Q x) → filter Q l = l.
Proof.
  induction l as [|x l IH]; intros HQ; [done|].
  rewrite filter_cons_True by (apply HQ; left).
  f_equal. apply IH. intros y Hy. apply HQ. by right.
Qed.

Lemma filter_none {A} (Q : A → Prop) `{!∀ x, Decision (Q x)} (l : list A) :
  (∀ x, x ∈ l → ¬ Q x) → filter Q l = [].
Proof.
  induction l as [|x l IH]; intros HQ; [done|].
  rewrite filter_cons_False by (apply HQ; left).
  apply IH. intros y Hy. apply HQ. by right.
Qed.

Lemma elem_of_first_seen x l : x ∈ first_seen l ↔ x ∈ l.
Proof.
  induction l as [|y l IH]; simpl; [done|].
  rewrite !elem_of_cons, list_elem_of_filter, IH.
  destruct (decide (x = y)); naive_solver.
Qed.

Lemma NoDup_first_seen l : NoDup (first_seen l).
Proof.
  induction l as [|y l IH]; simpl; [constructor|].
  apply NoDup_cons. split; [|by apply NoDup_filter].
  rewrite list_elem_of_filter. naive_solver.
Qed.

Lemma first_seen_app p q :
  first_seen (p ++ q) = first_seen p ++ filter (λ y, y ∉ p) (first_seen q).
Proof.
  induction p as [|x p IH]; simpl.
  - symmetry. apply filter_all. intros y _. apply not_elem_of_nil.
  - f_equal. rewrite IH, filter_app. f_equal.
    rewrite list_filter_filter. apply list_filter_iff.
    intros y. rewrite not_elem_of_cons. tauto.
Qed.

(** Items seen a second time add nothing. *)
Lemma first_seen_absorb p l :
  p `prefix_of` l → first_seen (p ++ l) = first_seen l.
Proof.
  intros [r ->]. rewrite !first_seen_app, filter_app. f_equal.
  rewrite (filter_none _ (first_seen p)).
  - simpl. rewrite list_filter_filter. apply list_filter_iff. tauto.
  - intros y Hy Hn. apply Hn. by apply elem_of_first_seen.
Qed.

(** The generator [iter_answer] computes [first_seen] of the ids, less the
    ids it was started with. *)
Lemma iter_answer_filter ids (answer : list Item) :
  iter_answer ids answer
  = filter (λ y, y ∉ ids) (first_seen (item_id <$> answer)).
Proof.
  revert ids. induction answer as [|item answer IH]; intros ids; csimpl.
  - done.
  - rewrite IH, IH. destruct (decide (item_id item ∈ ids)) as [Hin|Hin].
    + rewrite filter_cons_False by tauto. rewrite list_filter_filter.
      apply list_filter_iff. intros y. split; [|tauto].
      intros Hy. split; [done|]. congruence.
    + rewrite filter_cons_True by done. f_equal.
      rewrite list_filter_filter. apply list_filter_iff. intros y.
      rewrite not_elem_of_app, list_elem_of_singleton. tauto.
Qed.

Lemma iter_answer_first_seen (answer : list Item) :
  iter_answer [] answer = first_seen (item_id <$> answer).
Proof.
  rewrite iter_answer_filter. apply filter_all.
  intros y _. apply not_elem_of_nil.
Qed.

(** C10. [MangaDexCommand.prompt] hands back identities only: for the
    generator of the direct mode, the ids of the items it yields, each once,
    in the order first seen; for a selected item that cannot be iterated,
    the one-element list of its id; for a selected item that can be
    iterated, the ids of its elements, each once, in the order first seen;
    and it never hands back the item the base prompt returned. *)
Theorem prompt_gives_identities input_pos fuel inputs cmd :
  let base := prompt variant input_pos fuel inputs cmd in
  let mdx := MangaDexCommand_prompt variant input_pos fuel inputs cmd in
  (∀ evs e, base = AnsGenerator (evs, e) →
     mdx = (evs, MdxIter (first_seen (item_id <$> yields evs)) e)) ∧
  (∀ evs item, base = AnsPrompt (evs, Returned (Some item)) →
     item_iter item = None → mdx = (evs, MdxList [item_id item])) ∧
  (∀ evs item elements, base = AnsPrompt (evs, Returned (Some item)) →
     item_iter item = Some elements →
     mdx = (evs, MdxIter (first_seen (item_id <$> elements)) GenReturn)) ∧
  (∀ item, mdx.2 ≠ MdxStop (Returned (Some item))).
Proof.
  cbv zeta. unfold MangaDexCommand_prompt.
  destruct (prompt variant input_pos fuel inputs cmd) as [[evs e]|[evs out]].
  - split_and!; [|done|done|done].
    intros ? ? [= <- <-]. by rewrite iter_answer_first_seen.
  - split_and!; [done|..].
    + intros ? item [= <- ->] Hit. by rewrite Hit.
    + intros ? item els [= <- ->] Hit. by rewrite Hit, iter_answer_first_seen.
    + intros item. destruct out as [[it|]| | |]; simpl; [|done..].
      by destruct (item_iter it).
Qed.

End engine_facts.

(** ** The choice set over the paginator of the specification *)



Section paginator_facts.
Context {Item : Type} `{!ItemLike Item}.
Implicit Types (items l : list Item) (ch : dict Item).

Lemma labelled_from_cons off x l :
  labelled_from off (x :: l) = (pretty off, x) :: labelled_from (S off) l.
Proof. done. Qed.

Lemma labelled_from_app off l1 l2 :
  labelled_from off (l1 ++ l2)
  = labelled_from off l1 ++ labelled_from (off + length l1) l2.
Proof.
  revert off. induction l1 as [|x l1 IH]; intros off; simpl.
  - by rewrite Nat.add_0_r.
  - rewrite !labelled_from_cons, IH. simpl. do 3 f_equal. lia.
Qed.

Lemma get_app {V} k (d1 d2 : dict V) :
  PyDict.get k (d1 ++ d2)
  = match PyDict.get k d1 with Some v => Some v | None => PyDict.get k d2 end.
Proof.
  induction d1 as [|[k' v'] d1 IH]; simpl; [done|]. by case_decide.
Qed.

Lemma get_labelled_from (i off : nat) l :
  PyDict.get (pretty i) (labelled_from off l)
  = if decide (off ≤ i) then l !! (i - off) else None.
Proof.
  revert off. induction l as [|x l IH]; intros off.
  - simpl. by case_decide.
  - rewrite labelled_from_cons. simpl. rewrite IH.
    destruct (decide (pretty i = pretty off)) as [Heq|Hne].
    + apply (inj pretty) in Heq as ->. rewrite decide_True by lia.
      by rewrite Nat.sub_diag.
    + assert (i ≠ off) by congruence.
      repeat case_decide; try lia; [|done].
      by replace (i - off) with (S (i - S off)) by lia.
Qed.

Lemma get_labelled_Some k v off l :
  PyDict.get k (labelled_from off l) = Some v →
  ∃ i, k = pretty i ∧ off ≤ i ∧ l !! (i - off) = Some v.
Proof.
  revert off. induction l as [|x l IH]; intros off; [done|].
  rewrite labelled_from_cons. simpl. case_decide as Hk.
  - intros [= <-]. exists off. by rewrite Nat.sub_diag.
  - intros (i & -> & Hle & Hl)%IH. exists i. split; [done|]. split; [lia|].
    by replace (i - off) with (S (i - S off)) by lia.
Qed.

Lemma values_labelled_from off l : PyDict.values (labelled_from off l) = l.
Proof.
  unfold PyDict.values, labelled_from. apply snd_zip.
  by rewrite length_fmap, length_seq.
Qed.

(** The [for] loop of [_insert_choices] on a page of fresh positions appends
    its entries. *)
Lemma insert_pairs_fresh l off ch text :
  (∀ j, off ≤ j → PyDict.get (pretty j) ch = None) →
  (foldl insert_pair (ch, text) (zip (seq off (length l)) l)).1
  = ch ++ labelled_from off l.
Proof.
  revert off ch text. induction l as [|x l IH]; intros off ch text Hfresh.
  - simpl. by rewrite app_nil_r.
  - simpl. unfold insert_pair at 2. simpl. rewrite IH.
    + rewrite set_fresh by (apply Hfresh; lia).
      by rewrite <-app_assoc.
    + intros j Hj. rewrite get_set_ne; [apply Hfresh; lia|].
      intros Heq. apply (inj pretty) in Heq. lia.
Qed.



Lemma ch_at_fresh items limit j i :
  S j * limit ≤ i → PyDict.get (pretty i) (ch_at items limit j) = None.
Proof.
  intros Hi. unfold ch_at. rewrite get_labelled_from, decide_True by lia.
  apply lookup_take_ge. lia.
Qed.

Lemma page_insert items limit k ch text :
  (∀ i, k * limit ≤ i → PyDict.get (pretty i) ch = None) →
  (foldl insert_pair (ch, text) (page_of items limit k)).1
  = ch ++ labelled_from (k * limit) (take limit (drop (k * limit) items)).
Proof. intros Hfresh. unfold page_of. by apply insert_pairs_fresh. Qed.

Lemma page_of_nil items limit k :
  page_of items limit k = [] ↔ limit = 0 ∨ length items ≤ k * limit.
Proof.
  unfold page_of.
  destruct (take limit (drop (k * limit) items)) as [|x sl] eqn:Hs; simpl.
  - split; [intros _|done]. apply (f_equal length) in Hs.
    rewrite length_take, length_drop in Hs. simpl in Hs. lia.
  - split; [done|]. intros Hor. apply (f_equal length) in Hs.
    rewrite length_take, length_drop in Hs. simpl in Hs. lia.
Qed.

Lemma fetch_exhausted items limit (p : option nat) text ch :
  let k := match p with None => 0 | Some j => S j end in
  limit = 0 ∨ length items ≤ k * limit →
  _insert_choices Next (MkCommand (MkListPaginator items limit p) text) ch
  = (MkCommand (MkListPaginator items limit p) text, ch, Some IteratorEmpty).
Proof.
  intros k Hend. unfold _insert_choices. simpl. unfold lp_next. simpl.
  fold k. by rewrite (proj2 (page_of_nil items limit k) Hend).
Qed.

Lemma fetch_page items limit (p : option nat) text ch :
  let k := match p with None => 0 | Some j => S j end in
  0 < limit → k * limit < length items →
  (∀ i, k * limit ≤ i → PyDict.get (pretty i) ch = None) →
  ∃ text',
    _insert_choices Next (MkCommand (MkListPaginator items limit p) text) ch
    = (cmd_at items limit k text',
       ch ++ labelled_from (k * limit) (take limit (drop (k * limit) items)),
       None).
Proof.
  intros k Hlimit Hk Hfresh. unfold _insert_choices. simpl. unfold lp_next.
  simpl. fold k.
  destruct (page_of items limit k) as [|pr page] eqn:Hp.
  { apply page_of_nil in Hp. lia. }
  rewrite <-Hp. simpl. pose proof (page_insert items limit k ch EmptyString Hfresh) as Hins.
  destruct (foldl insert_pair (ch, EmptyString) (page_of items limit k))
    as [ch' text'].
  simpl in Hins. subst ch'. by exists text'.
Qed.

Lemma first_fetch items limit :
  0 < limit → items ≠ [] →
  ∃ text, _insert_choices Next (new_command items limit) []
          = (cmd_at items limit 0 text, ch_at items limit 0, None).
Proof.
  intros Hlimit Hne.
  destruct (fetch_page items limit None EmptyString []) as [text Hf];
    [done| simpl; destruct items; [done | simpl; lia] | done |].
  exists text. unfold new_command. rewrite Hf. unfold ch_at. simpl.
  by rewrite Nat.add_0_r.
Qed.

Lemma next_fetch items limit j text :
  0 < limit → S j * limit < length items →
  ∃ text', _insert_choices Next (cmd_at items limit j text) (ch_at items limit j)
           = (cmd_at items limit (S j) text', ch_at items limit (S j), None).
Proof.
  intros Hlimit Hj.
  destruct (fetch_page items limit (Some j) text (ch_at items limit j))
    as [text' Hf]; [done | done | apply ch_at_fresh |].
  exists text'. unfold cmd_at at 1. rewrite Hf. f_equal.
  unfold ch_at. f_equal.
  replace (S j * limit) with (0 + length (take (S j * limit) items)) at 2
    by (rewrite length_take; lia).
  rewrite <-labelled_from_app, take_take_drop. f_equal. f_equal. lia.
Qed.

Lemma next_fetch_end items limit j text :
  length items ≤ S j * limit →
  _insert_choices Next (cmd_at items limit j text) (ch_at items limit j)
  = (cmd_at items limit j text, ch_at items limit j, Some IteratorEmpty).
Proof. intros Hj. apply (fetch_exhausted items limit (Some j)). by right. Qed.

End paginator_facts.

(** ** Direct lookups over the paginator of the specification *)

Lemma num_pages_le len limit k :
  0 < limit → num_pages len limit ≤ k ↔ len ≤ k * limit.
Proof.
  intros Hlimit. unfold num_pages. split.
  - intros Hle. destruct (decide (len ≤ k * limit)) as [|Hgt]; [done|].
    assert (S k ≤ (len + limit - 1) / limit); [|lia].
    apply Nat.div_le_lower_bound; lia.
  - intros Hle. apply Nat.lt_succ_r, Nat.Div0.div_lt_upper_bound. lia.
Qed.

Lemma div_lt_page i limit j : 0 < limit → i < S j * limit ↔ i / limit ≤ j.
Proof.
  intros Hlimit. split.
  - intros Hi. apply Nat.lt_succ_r, Nat.Div0.div_lt_upper_bound. lia.
  - intros Hle. destruct (decide (i < S j * limit)) as [|Hge]; [done|].
    assert (S j ≤ i / limit); [|lia]. apply Nat.div_le_lower_bound; lia.
Qed.

Section lookup_facts.
Context {Item : Type} `{!ItemLike Item}.
Variable variant : Variant Item.
Implicit Types (items : list Item).

Lemma yields_app (evs1 evs2 : list (Event Item)) :
  yields (evs1 ++ evs2) = yields evs1 ++ yields evs2.
Proof. apply omap_app. Qed.

Lemma yields_yielded items : yields (EvYield <$> items) = items.
Proof. induction items as [|x items IH]; csimpl; [done|]. by f_equal. Qed.

Lemma get_ch_at_missing items limit j pos :
  (∀ i, i < length items → pos ≠ pretty i) →
  PyDict.get pos (ch_at items limit j) = None.
Proof.
  intros Hpos.
  destruct (PyDict.get pos (ch_at items limit j)) as [v|] eqn:Hg; [|done].
  apply get_labelled_Some in Hg as (i & -> & _ & Hl).
  apply lookup_lt_Some in Hl. rewrite length_take in Hl.
  destruct (Hpos i); [lia | done].
Qed.

(** The label is the label of no item: the pages are fetched to the last
    one, and the failing call ends the command. *)
Lemma lookup_loop_missing items limit pos fuel j text :
  0 < limit → pos ≠ "*" →
  (∀ i, i < length items → pos ≠ pretty i) →
  length items - S j * limit < fuel →
  return_from_loop fuel pos (cmd_at items limit j text)
    (ch_at items limit j)
  = (replicate (S (num_pages (length items) limit - S j)) (EvFetch Next),
     GenExit "There are no more results").
Proof.
  intros Hlimit Hstar Hpos. revert j text.
  induction fuel as [|fuel IH]; intros j text Hfuel; [lia|].
  simpl. rewrite get_ch_at_missing by done. rewrite decide_False by done.
  destruct (decide (length items ≤ S j * limit)) as [Hend|Hmore].
  - rewrite next_fetch_end by done.
    apply num_pages_le in Hend; [|done].
    by replace (num_pages (length items) limit - S j) with 0 by lia.
  - destruct (next_fetch items limit j text) as [text' ->]; [done|lia|].
    assert (S (S j) * limit = limit + S j * limit) as Hmul by (simpl; lia).
    rewrite IH by (try rewrite Hmul; lia). simpl. do 2 f_equal.
    assert (¬ num_pages (length items) limit ≤ S j)
      by (rewrite num_pages_le by done; lia).
    by replace (num_pages (length items) limit - S j)
      with (S (num_pages (length items) limit - S (S j))) by lia.
Qed.

(** The label is the label of the item at position [i]: the pages are
    fetched up to the one that holds it. *)
Lemma lookup_loop_found items limit i x fuel j text :
  0 < limit → items !! i = Some x →
  j ≤ i / limit → i / limit - j < fuel →
  return_from_loop fuel (pretty i) (cmd_at items limit j text)
    (ch_at items limit j)
  = (replicate (i / limit - j) (EvFetch Next) ++ [EvYield x], GenReturn).
Proof.
  intros Hlimit Hx. revert j text.
  induction fuel as [|fuel IH]; intros j text Hj Hfuel; [lia|].
  pose proof (lookup_lt_Some _ _ _ Hx) as Hi.
  simpl. unfold ch_at at 1. rewrite get_labelled_from, decide_True by lia.
  rewrite Nat.sub_0_r.
  destruct (decide (i < S j * limit)) as [Hin|Hout].
  - rewrite lookup_take_lt by done. rewrite Hx.
    apply div_lt_page in Hin; [|done].
    by replace (i / limit - j) with 0 by lia.
  - rewrite lookup_take_ge by lia.
    assert (pretty i ≠ "*") as Hstar by apply label_not_star.
    rewrite decide_False by done.
    destruct (next_fetch items limit j text) as [text' ->]; [done|lia|].
    assert (S (S j) * limit = limit + S j * limit) as Hmul by (simpl; lia).
    assert (¬ i / limit ≤ j) by (rewrite <-div_lt_page by done; lia).
    rewrite IH by (try rewrite Hmul; lia).
    replace (i / limit - j) with (S (i / limit - S j)) by lia. done.
Qed.

(** The wildcard: every turn yields the whole choice set again, so the items
    yielded have the ids of the source, in the order first seen. *)
Lemma wildcard_loop items limit fuel j text :
  0 < limit → length items - S j * limit < fuel →
  ∃ evs,
    return_from_loop fuel "*" (cmd_at items limit j text)
      (ch_at items limit j)
    = (evs, GenExit "There are no more results")
    ∧ first_seen (item_id <$> yields evs) = first_seen (item_id <$> items).
Proof.
  intros Hlimit. revert j text.
  induction fuel as [|fuel IH]; intros j text Hfuel; [lia|].
  simpl. rewrite get_ch_at_missing
    by (intros i _ Heq; by apply (label_not_star i)).
  assert (PyDict.values (ch_at items limit j) = take (S j * limit) items)
    as -> by apply values_labelled_from.
  destruct (decide (length items ≤ S j * limit)) as [Hend|Hmore].
  - rewrite next_fetch_end by done. eexists. split; [done|].
    rewrite yields_app, yields_yielded. simpl. rewrite app_nil_r.
    by rewrite take_ge by done.
  - destruct (next_fetch items limit j text) as [text' ->]; [done|lia|].
    assert (S (S j) * limit = limit + S j * limit) as Hmul by (simpl; lia).
    destruct (IH (S j) text') as (evs & -> & Hids); [rewrite Hmul; lia|].
    eexists. split; [done|].
    rewrite yields_app, yields_yielded. simpl. change (yields evs) with (yields evs).
    rewrite fmap_app, first_seen_app, Hids, <-first_seen_app.
    apply first_seen_absorb. rewrite fmap_take. apply prefix_take.
Qed.

(** The wildcard, turn by turn: nothing but yields and fetches, to the
    fetch that fails. *)
Lemma wildcard_loop_trace items limit fuel j text :
  0 < limit → j * limit < length items →
  length items - S j * limit < fuel →
  return_from_loop fuel "*" (cmd_at items limit j text)
    (ch_at items limit j)
  = (wildcard_turns items limit j (num_pages (length items) limit - j),
     GenExit "There are no more results").
Proof.
  intros Hlimit. revert j text.
  induction fuel as [|fuel IH]; intros j text Hj Hfuel; [lia|].
  assert (¬ num_pages (length items) limit ≤ j) as Hpages
    by (rewrite num_pages_le by done; lia).
  simpl. rewrite get_ch_at_missing
    by (intros i _ Heq; by apply (label_not_star i)).
  assert (PyDict.values (ch_at items limit j) = take (S j * limit) items)
    as -> by apply values_labelled_from.
  unfold wildcard_turns.
  destruct (decide (length items ≤ S j * limit)) as [Hend|Hmore].
  - rewrite next_fetch_end by done.
    apply num_pages_le in Hend; [|done].
    replace (num_pages (length items) limit - j) with 1 by lia.
    simpl. by rewrite app_nil_r.
  - destruct (next_fetch items limit j text) as [text' ->]; [done|lia|].
    assert (S (S j) * limit = limit + S j * limit) as Hmul by (simpl; lia).
    rewrite IH by (try rewrite Hmul; lia).
    replace (num_pages (length items) limit - j)
      with (S (num_pages (length items) limit - S j)) by lia.
    unfold wildcard_turns. csimpl. by rewrite <-app_assoc.
Qed.

End lookup_facts.

Section direct_mode.
Context {Item : Type} `{!ItemLike Item}.
Variable variant : Variant Item.
Implicit Types (items : list Item).

Lemma next_on_empty_source limit :
  (pg_call Next (paginator (new_command (@nil Item) limit))).2
  = MkFetch [] (Some IteratorEmpty).
Proof.
  simpl. unfold lp_next. simpl.
  by rewrite (proj2 (page_of_nil (@nil Item) limit 0)) by (right; simpl; lia).
Qed.

Lemma prompt_on_empty_source limit input_pos fuel inputs :
  prompt variant input_pos fuel inputs (new_command [] limit)
  = match truthy_pos input_pos with
    | Some _ =>
        AnsGenerator
          ([EvFetch Next; EvEmptyHook],
           match on_empty_error variant with
           | Some msg => GenExit msg
           | None => GenReturn
           end)
    | None =>
        AnsPrompt
          ([EvFetch Next; EvEmptyHook],
           match on_empty_error variant with
           | Some msg => Exited msg
           | None => Returned None
           end)
    end.
Proof.
  unfold prompt, _return_from, prompt_interactive, new_command.
  rewrite (fetch_exhausted [] limit None) by (right; simpl; lia).
  by destruct (truthy_pos input_pos).
Qed.

(** C6. On an empty source the first call of [next()] raises
    [IteratorEmpty]; the prompt, interactive or direct, then calls
    [on_empty_error] once and ends without a selection: nothing is
    returned or yielded (the interactive prompt returns [None] or the hook
    has ended the command; the generator ends without yielding). *)
Theorem empty_source_calls_hook limit input_pos fuel inputs :
  (pg_call Next (paginator (new_command (@nil Item) limit))).2
    = MkFetch [] (Some IteratorEmpty) ∧
  prompt variant input_pos fuel inputs (new_command [] limit)
  = match truthy_pos input_pos with
    | Some _ =>
        AnsGenerator
          ([EvFetch Next; EvEmptyHook],
           match on_empty_error variant with
           | Some msg => GenExit msg
           | None => GenReturn
           end)
    | None =>
        AnsPrompt
          ([EvFetch Next; EvEmptyHook],
           match on_empty_error variant with
           | Some msg => Exited msg
           | None => Returned None
           end)
    end.
Proof. split; [apply next_on_empty_source | apply prompt_on_empty_source]. Qed.

(** C5, as the code has it. In direct mode the engine fetches page after
    page and nothing else: it never prints the choices or reads a line. On
    a source that is not empty, when the label is the one of the item at
    position [i] it stops after the page that holds it (page [i / limit])
    and yields that item; when it is the label of no item, it fetches every
    page, and the call after the last one ends the command with "There are
    no more results". That holds for the wildcard too, which is the label
    of no item: before each fetch it yields the items of the pages it has.
    On an empty source the first fetch fails: [on_empty_error] is called
    and the lookup ends as the hook leaves it, with the message of the hook
    or, when the hook returns, with no error at all. *)
Theorem direct_lookup items limit pos fuel inputs :
  0 < limit → pos ≠ EmptyString → length items < fuel →
  let run := prompt variant (Some pos) fuel inputs (new_command items limit) in
  (items = [] →
     run = AnsGenerator
             ([EvFetch Next; EvEmptyHook],
              match on_empty_error variant with
              | Some msg => GenExit msg
              | None => GenReturn
              end)) ∧
  (∀ i x, pos = pretty i → items !! i = Some x →
     run = AnsGenerator
             (replicate (S (i / limit)) (EvFetch Next) ++ [EvYield x],
              GenReturn)) ∧
  (items ≠ [] → pos ≠ "*" → (∀ i, i < length items → pos ≠ pretty i) →
     run = AnsGenerator
             (replicate (S (num_pages (length items) limit)) (EvFetch Next),
              GenExit "There are no more results")) ∧
  (items ≠ [] → pos = "*" →
     run = AnsGenerator
             (EvFetch Next
                :: wildcard_turns items limit 0 (num_pages (length items) limit),
              GenExit "There are no more results")).
Proof.
  intros Hlimit Hpos Hfuel. cbv zeta.
  assert (truthy_pos (Some pos) = Some pos) as Htruthy by by destruct pos.
  split_and!.
  - intros ->. by rewrite prompt_on_empty_source, Htruthy.
  - intros i x -> Hx. pose proof (lookup_lt_Some _ _ _ Hx) as Hi.
    unfold prompt, _return_from. rewrite Htruthy.
    destruct (first_fetch items limit Hlimit) as [text ->];
      [by intros ->|].
    assert (i / limit ≤ i) by (apply Nat.Div0.div_le_upper_bound; nia).
    rewrite (lookup_loop_found items limit i x) by (done || lia).
    by rewrite Nat.sub_0_r.
  - intros Hne Hstar Hmissing.
    unfold prompt, _return_from. rewrite Htruthy.
    destruct (first_fetch items limit Hlimit Hne) as [text ->].
    rewrite lookup_loop_missing by (done || lia).
    assert (¬ num_pages (length items) limit ≤ 0).
    { rewrite num_pages_le by done. destruct items; simpl; [done | lia]. }
    by replace (num_pages (length items) limit)
      with (S (num_pages (length items) limit - 1)) at 2 by lia.
  - intros Hne ->.
    unfold prompt, _return_from. simpl truthy_pos. cbv iota.
    destruct (first_fetch items limit Hlimit Hne) as [text ->].
    rewrite wildcard_loop_trace
      by (done || lia || (destruct items; simpl; [done | lia])).
    by rewrite Nat.sub_0_r.
Qed.

(** C1. Resolving the wildcard through [MangaDexCommand.prompt] yields the
    ids of the items of the whole source, each id once, in the order first
    seen, whatever repetitions of ids the source has. (The generator then
    ends as the code has it: on the fatal "There are no more results" for a
    source that is not empty, on [on_empty_error] for an empty one.) *)
Theorem wildcard_yields_each_identity_once items limit fuel inputs :
  0 < limit → length items < fuel →
  let ids := first_seen (item_id <$> items) in
  (∃ evs,
     MangaDexCommand_prompt variant (Some "*") fuel inputs
       (new_command items limit)
     = (evs,
        MdxIter ids
          match items with
          | [] => match on_empty_error variant with
                  | Some msg => GenExit msg
                  | None => GenReturn
                  end
          | _ => GenExit "There are no more results"
          end)) ∧
  NoDup ids ∧ (∀ x, x ∈ ids ↔ x ∈ item_id <$> items).
Proof.
  intros Hlimit Hfuel. cbv zeta.
  split; [|split; [apply NoDup_first_seen | intros x; apply elem_of_first_seen]].
  unfold MangaDexCommand_prompt.
  destruct items as [|x0 items'] eqn:Hitems.
  - rewrite (prompt_on_empty_source limit (Some "*") fuel inputs).
    simpl. by eexists.
  - rewrite <-Hitems in *. unfold prompt, _return_from. simpl truthy_pos. cbv iota.
    destruct (first_fetch items limit Hlimit) as [text ->]; [by subst|].
    destruct (wildcard_loop items limit fuel 0 text) as (evs & -> & Hids);
      [done | lia |].
    eexists. f_equal. rewrite iter_answer_first_seen. simpl.
    by rewrite Hids.
Qed.

End direct_mode.

(** ** Sessions over the paginator of the specification *)

Section stable_entries.
Context {Item : Type} `{!ItemLike Item}.
Variable variant : Variant Item.
Implicit Types (items : list Item) (s : Session (ListPaginator Item) Item).

Lemma page_of_lookup items limit k pos x :
  (pos, x) ∈ page_of items limit k → items !! pos = Some x.
Proof.
  unfold page_of. intros (j & Hj)%list_elem_of_lookup.
  apply lookup_zip_with_Some in Hj as (pos' & x' & [= <- <-] & Hpos & Hx).
  apply lookup_seq in Hpos as [-> _].
  apply lookup_take_Some in Hx as [Hx _]. by rewrite lookup_drop in Hx.
Qed.

Lemma pg_call_source a (p : ListPaginator Item) :
  lp_items (pg_call a p).1 = lp_items p ∧
  ∀ pos x, (pos, x) ∈ delivered (pg_call a p).2 → lp_items p !! pos = Some x.
Proof.
  destruct a; simpl; unfold lp_next, lp_previous.
  - destruct (page_of _ _ _) as [|pr page] eqn:Hp; simpl.
    + split; [done|]. intros pos x Hin. by apply not_elem_of_nil in Hin.
    + split; [done|]. intros pos x Hin. rewrite <-Hp in Hin.
      by apply page_of_lookup in Hin.
  - destruct (lp_page p) as [[|k]|]; simpl; (split; [done|]); intros pos x Hin;
      try by apply not_elem_of_nil in Hin.
    by apply page_of_lookup in Hin.
Qed.

Lemma _insert_choices_stable a cmd ch cmd' ch' err :
  _insert_choices a cmd ch = (cmd', ch', err) →
  from_source (lp_items (paginator cmd)) ch →
  lp_items (paginator cmd') = lp_items (paginator cmd) ∧
  from_source (lp_items (paginator cmd)) ch' ∧
  ∀ label item, PyDict.get label ch = Some item →
                PyDict.get label ch' = Some item.
Proof.
  intros Hins Hch.
  destruct (pg_call_source a (paginator cmd)) as [Hitems Hpage].
  assert (from_source (lp_items (paginator cmd)) ch') as Hch'.
  { intros label item Hg.
    destruct (_insert_choices_origin _ _ _ _ _ _ _ _ Hins Hg)
      as [_ [Hold|(pos & Hin & ->)]]; [by apply Hch|].
    exists pos. split; [done|]. by apply Hpage. }
  split; [|split; [done|]].
  - unfold _insert_choices in Hins.
    destruct (pg_call a (paginator cmd)) as [pg f].
    destruct (foldl _ _ _) as [ch1 text].
    by destruct (raised f); injection Hins as <- _ _.
  - intros label item Hg.
    destruct (_insert_choices_grow _ _ _ _ _ _ Hins) as (_ & _ & Hv).
    destruct (Hv label item Hg) as (item' & Hg' & [->|(pos & Hin & ->)]);
      [done|].
    destruct (Hch _ _ Hg) as (i & Heq & Hi). apply (inj pretty) in Heq as <-.
    apply Hpage in Hin. congruence.
Qed.

(** With the paginator of the specification, which gives a position the
    same item every time, a step of the loop keeps every entry as it is. *)
Lemma dispatch_entries_stable items answer s evs s' :
  lp_items (paginator (self s)) = items →
  from_source items (choices s) →
  dispatch variant answer s = (evs, inr s') →
  lp_items (paginator (self s')) = items ∧
  from_source items (choices s') ∧
  ∀ label item, PyDict.get label (choices s) = Some item →
                PyDict.get label (choices s') = Some item.
Proof.
  intros <- Hch [[-> ->]|(a & err & Hins)]%dispatch_continue; [done|].
  by apply _insert_choices_stable in Hins.
Qed.

Lemma prompt_loop_entries_stable items inputs s evs s' :
  lp_items (paginator (self s)) = items →
  from_source items (choices s) →
  prompt_loop variant inputs s = (evs, Waiting s') →
  lp_items (paginator (self s')) = items ∧
  from_source items (choices s') ∧
  ∀ label item, PyDict.get label (choices s) = Some item →
                PyDict.get label (choices s') = Some item.
Proof.
  revert s evs. induction inputs as [|answer inputs IH]; intros s evs Hi Hch;
    simpl.
  - by intros [= <- <-].
  - destruct (dispatch variant answer s) as [devs [out|s1]] eqn:Hd.
    { intros [= <- ->]. by apply dispatch_not_waiting in Hd. }
    destruct (prompt_loop variant inputs s1) as [evs1 out1] eqn:Hl.
    intros [= <- ->].
    destruct (dispatch_entries_stable _ _ _ _ _ Hi Hch Hd) as (Hi1 & Hch1 & H1).
    destruct (IH _ _ Hi1 Hch1 Hl) as (Hi' & Hch' & H').
    eauto.
Qed.

(** In a session over a source the entries the choice set has at one
    point are entries of it at every later point. *)
Lemma session_entries_stable items limit inputs more evs evs' s s' :
  prompt_interactive variant (new_command items limit) inputs
    = (evs, Waiting s) →
  prompt_interactive variant (new_command items limit) (inputs ++ more)
    = (evs', Waiting s') →
  ∀ label item, PyDict.get label (choices s) = Some item →
                PyDict.get label (choices s') = Some item.
Proof.
  intros Hrun Hrun'.
  assert (lp_items (paginator (self s)) = items ∧ from_source items (choices s))
    as [Hi Hch].
  { revert Hrun. unfold prompt_interactive.
    destruct (_insert_choices Next (new_command items limit) [])
      as [[cmd ch] err] eqn:Hins.
    apply _insert_choices_stable in Hins as (Hi & Hch & _); [|done].
    destruct err as [[| |name]|];
      [simpl; by destruct (on_empty_error variant) | done | done |].
    destruct (prompt_loop variant inputs _) as [evs1 out] eqn:Hl.
    intros [= <- ->].
    by apply (prompt_loop_entries_stable items) in Hl as (? & ? & _). }
  apply prompt_interactive_waiting in Hrun as (_ & evs0 & -> & Hmore).
  rewrite Hmore in Hrun'.
  destruct (prompt_loop variant more s) as [evs1 out] eqn:Hl.
  simpl in Hrun'. injection Hrun' as _ ->.
  by apply (prompt_loop_entries_stable items) in Hl as (_ & _ & Hkeep).
Qed.

End stable_entries.

(** ** The search filters *)

Section filter_facts.
Variable get_key_value : string → string * string.
Variable split_comma_separated : string → bool → FilterValue.
Implicit Types (fk orders : dict FilterValue) (key : string).

Lemma NoDup_keys_add_filter fk f :
  NoDup (PyDict.keys fk) →
  NoDup (PyDict.keys (add_filter get_key_value split_comma_separated fk f)).
Proof.
  intros Hnd. unfold add_filter. destruct (get_key_value f) as [key value].
  destruct (PyDict.get key fk); by apply NoDup_keys_set.
Qed.

Lemma NoDup_keys_parsed filters :
  NoDup (PyDict.keys
           (foldl (add_filter get_key_value split_comma_separated) [] filters)).
Proof.
  assert (NoDup (PyDict.keys (@nil (string * FilterValue)))) as Hnil
    by constructor.
  revert Hnil. generalize (@nil (string * FilterValue)).
  induction filters as [|f filters IH]; intros fk Hnd; simpl; [done|].
  by apply IH, NoDup_keys_add_filter.
Qed.

(** The first loop: [orders] receives, under the same key, the value of
    every key of [filter_kwargs] that contains "order". *)
Lemma get_collect_step fk (ks : list string) orders key :
  PyDict.get key
    (foldl (λ orders key,
              if PyStr.contains "order" key then
                match PyDict.get key fk with
                | Some v => PyDict.set key v orders
                | None => orders
                end
              else orders) orders ks)
  = if decide (key ∈ ks ∧ PyStr.contains "order" key = true
               ∧ is_Some (PyDict.get key fk))
    then PyDict.get key fk else PyDict.get key orders.
Proof.
  revert orders. induction ks as [|k ks IH]; intros orders; cbn [foldl].
  - rewrite decide_False; [done|]. intros [Hin _]. by apply not_elem_of_nil in Hin.
  - rewrite IH. destruct (decide (key = k)) as [->|Hne].
    + destruct (PyStr.contains "order" k) eqn:Hc;
        [destruct (PyDict.get k fk) as [v|] eqn:Hg|].
      * rewrite get_set_eq.
        rewrite (decide_True (P := k ∈ k :: ks ∧ _))
          by (split; [left | split; [done | by eexists]]).
        by case_decide.
      * repeat case_decide; try done; naive_solver.
      * repeat case_decide; try done; naive_solver.
    + assert (get_other : ∀ o, PyDict.get key
        (if PyStr.contains "order" k then
           match PyDict.get k fk with
           | Some v => PyDict.set k v o
           | None => o
           end
         else o) = PyDict.get key o).
      { intros o. destruct (PyStr.contains "order" k); [|done].
        destruct (PyDict.get k fk); [|done]. by rewrite get_set_ne. }
      rewrite get_other. apply decide_ext. rewrite elem_of_cons. naive_solver.
Qed.

Lemma get_collect_orders fk key :
  PyDict.get key (collect_orders fk)
  = if PyStr.contains "order" key then PyDict.get key fk else None.
Proof.
  unfold collect_orders. rewrite get_collect_step. simpl.
  destruct (PyStr.contains "order" key); [|by rewrite decide_False by naive_solver].
  destruct (PyDict.get key fk) as [v|] eqn:Hg.
  - rewrite decide_True; [done|]. split; [by eapply get_Some_keys|].
    split; [done | by eexists].
  - by case_decide.
Qed.

(** The second loop: the keys of [orders] leave [filter_kwargs]. *)
Lemma get_remove_step (ks : list string) fk key :
  NoDup (PyDict.keys fk) →
  PyDict.get key (foldl (λ fk key, PyDict.pop key fk) fk ks)
  = if decide (key ∈ ks) then None else PyDict.get key fk.
Proof.
  revert fk. induction ks as [|k ks IH]; intros fk Hnd; cbn [foldl].
  - by rewrite decide_False by apply not_elem_of_nil.
  - rewrite IH by by apply NoDup_keys_pop.
    destruct (decide (key = k)) as [->|Hne].
    + rewrite get_pop_eq by done. rewrite (decide_True (P := k ∈ k :: ks)) by left.
      by case_decide.
    + rewrite get_pop_ne by done. apply decide_ext. rewrite elem_of_cons.
      naive_solver.
Qed.

Lemma get_remove_orders fk key :
  NoDup (PyDict.keys fk) →
  PyDict.get key (remove_orders (collect_orders fk) fk)
  = if PyStr.contains "order" key then None else PyDict.get key fk.
Proof.
  intros Hnd. unfold remove_orders. rewrite get_remove_step by done.
  pose proof (get_collect_orders fk key) as Hc.
  destruct (PyStr.contains "order" key) eqn:Hk.
  - case_decide as Hin; [done|]. apply get_None_keys in Hin.
    by rewrite <-Hc.
  - rewrite decide_False; [done|]. by apply get_None_keys.
Qed.

Lemma get_fmap_values {V W} (g : V → W) (d : dict V) key :
  PyDict.get key (prod_map id g <$> d) = g <$> PyDict.get key d.
Proof.
  induction d as [|[k v] d IH]; csimpl; [done|]. by case_decide.
Qed.

(** C2, as the code has it. Every key of the parsed filters that contains
    "order" is moved, with its value and under the very same key (the
    whole of [order[createdAt]], not the inner field name), into the
    mapping of the orderings; that mapping is stored in the final keyword
    mapping under the key "order"; the keys moved are no longer keys of the
    final mapping, and the other filters are kept as they were. *)
Theorem order_keys_move_to_orders search_filter :
  let parsed :=
    foldl (add_filter get_key_value split_comma_separated) []
      (default [] search_filter) in
  let final :=
    search_filter_kwargs get_key_value split_comma_separated search_filter in
  ∃ orders,
    PyDict.get "order" final = Some (KOrders orders) ∧
    (∀ key v, PyDict.get key orders = Some v
       ↔ PyStr.contains "order" key = true ∧ PyDict.get key parsed = Some v) ∧
    (∀ key, PyStr.contains "order" key = true → key ≠ "order" →
       PyDict.get key final = None) ∧
    (∀ key, PyStr.contains "order" key = false →
       PyDict.get key final = KValue <$> PyDict.get key parsed).
Proof.
  cbv zeta. unfold search_filter_kwargs, assemble_filters.
  set (parsed := foldl _ _ _).
  assert (NoDup (PyDict.keys parsed)) as Hnd by apply NoDup_keys_parsed.
  exists (collect_orders parsed). split_and!.
  - apply get_set_eq.
  - intros key v. rewrite get_collect_orders.
    destruct (PyStr.contains "order" key); naive_solver.
  - intros key Hc Hne. rewrite get_set_ne by done.
    rewrite get_fmap_values, get_remove_orders by done. by rewrite Hc.
  - intros key Hc. rewrite get_set_ne by (intros <-; done).
    rewrite get_fmap_values, get_remove_orders by done. by rewrite Hc.
Qed.

End filter_facts.

(** ** The cover art *)

Section cover_facts.
Context {Lang : Type}.
Variable get_cover_art : PyVal → PyExn + PyVal.
Variable get_language : PyVal → PyExn + Lang.


Lemma CoverArt_fields_spec data c :
  CoverArt_fields get_language data = inr c ↔ maps_fields get_language data c.
Proof.
  unfold CoverArt_fields, maps_fields, mbind, exn_bind. split.
  - intros Hf. repeat (case_match; simplify_eq/=). eauto 10.
  - intros (Hd & Hid & attr & raw & Ha & Hdesc & Hvol & Hfile & Hloc & Hlang).
    rewrite Hid, Ha, Hdesc, Hvol, Hfile, Hloc, Hlang. subst data.
    by destruct c.
Qed.

(** C9. [CoverArt.__init__] calls [get_cover_art] exactly when [data] is
    falsy ([None] and the empty mapping are): with a truthy [data] it makes
    no call and the object is built from [data] itself; with a falsy one it
    calls [get_cover_art(cover_id)] once and builds the object from the
    ["data"] entry of the response. In both cases [id], [description],
    [volume], [file] are the entries [id], [attributes.description],
    [attributes.volume], [attributes.fileName], and [locale] is
    [get_language] of [attributes.locale]. *)
Theorem cover_art_fetches_iff_falsy cover_id data :
  let calls := (CoverArt_init get_cover_art get_language cover_id data).1 in
  let built := (CoverArt_init get_cover_art get_language cover_id data).2 in
  calls = (if truthy data then [] else [cover_id]) ∧
  (∀ c, built = inr c ↔
     if truthy data then maps_fields get_language data c
     else ∃ response fetched,
            get_cover_art cover_id = inr response ∧
            getitem response "data" = inr fetched ∧
            maps_fields get_language fetched c) ∧
  truthy PNone = false ∧ truthy (PDict []) = false.
Proof.
  cbv zeta. unfold CoverArt_init.
  destruct (truthy data); simpl; (split_and!; [done| |done|done]); intros c.
  - apply CoverArt_fields_spec.
  - unfold mbind, exn_bind.
    destruct (get_cover_art cover_id) as [e|response].
    { split; [done | by intros (? & ? & [=] & _)]. }
    destruct (getitem response "data") as [e|fetched] eqn:Hdata.
    { split; [done|]. intros (? & ? & [= <-] & Hd & _). congruence. }
    rewrite CoverArt_fields_spec. split; [eauto|].
    intros (? & ? & [= <-] & Hd & Hm). congruence.
Qed.

End cover_facts.

(** ** The scenarios of the specification, and the inputs the proofs are
    checked on *)


Example scenario_select :
  MangaDexCommand_prompt BaseVariant None 0 ["next"; "1"] (new_command five 2)
  = ([EvFetch Next; EvPrintChoices page1; EvFetch Next; EvPrintChoices page2],
     MdxList ["id-b"]).
Proof. vm_compute. reflexivity. Qed.

Example scenario_wildcard :
  MangaDexCommand_prompt BaseVariant (Some "*") 10 []
    (new_command [mA; mB; mA'; mC] 2)
  = ([EvFetch Next; EvYield mA; EvYield mB; EvFetch Next;
      EvYield mA; EvYield mB; EvYield mA'; EvYield mC; EvFetch Next],
     MdxIter ["id-a"; "id-b"; "id-c"] (GenExit "There are no more results")).
Proof. vm_compute. reflexivity. Qed.

Example scenario_navigation :
  (prompt_interactive (MangaVariant "nothing found") (new_command five 2)
     ["preview 1"; "preview 9"; "previous"; "next"; "next"; "next"; "4"]).2
  = Returned (Some mE).
Proof. vm_compute. reflexivity. Qed.

Lemma wildcard_witness :
  ∃ evs,
    MangaDexCommand_prompt BaseVariant (Some "*") 5 []
      (new_command [mA; mB; mA'; mC] 2)
    = (evs, MdxIter ["id-a"; "id-b"; "id-c"]
              (GenExit "There are no more results")).
Proof.
  exact (proj1 (wildcard_yields_each_identity_once BaseVariant
                  [mA; mB; mA'; mC] 2 5 [] ltac:(lia) ltac:(simpl; lia))).
Defined.

(** C2 as stated fails: the ordering of [order[createdAt]=asc] is stored
    under the whole key. *)
Lemma order_key_is_kept_whole :
  assemble_filters [("order[createdAt]", FStr "asc")]
  = [("order", KOrders [("order[createdAt]", FStr "asc")])]
  ∧ search_filter_kwargs get_key_value_model split_comma_separated_model
      (Some ["order[createdAt]=asc"])
    = [("order", KOrders [("order[createdAt]", FStr "asc")])]
  ∧ PyDict.get "createdAt" [("order[createdAt]", FStr "asc")] = None.
Proof. vm_compute. done. Qed.

(** C3 fails on the code. After an invalid choice the loop does not go back
    to reading a line: it goes on to [_insert_choices(choices, action)].
    As the first line of a session that raises [UnboundLocalError]; after a
    "next" it fetches the next page once more and the choice set grows. *)
Theorem invalid_choice_breaks_the_prompt :
  prompt_interactive BaseVariant (new_command five 2) ["foo"]
  = ([EvFetch Next; EvPrintChoices page1;
      _error "Invalid choice, try again"],
     Raised (UnboundLocalError "action"))
  ∧ (prompt_interactive BaseVariant (new_command five 2) ["next"; "foo"]).1
    = [EvFetch Next; EvPrintChoices page1; EvFetch Next; EvPrintChoices page2;
       _error "Invalid choice, try again"; EvFetch Next; EvPrintChoices page3]
  ∧ (PyDict.keys ∘ choices <$> session_after ["next"])
    = Some ["0"; "1"; "2"; "3"]
  ∧ (PyDict.keys ∘ choices <$> session_after ["next"; "foo"])
    = Some ["0"; "1"; "2"; "3"; "4"].
Proof. vm_compute. done. Qed.

(** C7 fails on the code, by the defect of C3. An invalid choice is one of
    the errors the choice set is to survive; entered before any "next" or
    "previous" it ends [prompt] with [UnboundLocalError] instead, whatever
    lines would follow, and the choice set, a local variable of [prompt],
    is gone: the loop never waits for input again. *)
Theorem invalid_choice_loses_the_choice_set (more : list string) :
  (PyDict.keys ∘ choices <$> session_after []) = Some ["0"; "1"]
  ∧ session_after ("foo" :: more) = None
  ∧ (prompt_interactive BaseVariant (new_command five 2) ("foo" :: more)).2
    = Raised (UnboundLocalError "action")
  ∧ (prompt_interactive (MangaVariant "nothing found") (new_command five 2)
       ("preview 7" :: "foo" :: more)).2
    = Raised (UnboundLocalError "action").
Proof. vm_compute. done. Qed.

Lemma visible_label_witness :
  ∃ evs s,
    prompt_interactive BaseVariant (new_command five 2) ["next"]
    = (evs, Waiting s)
    ∧ PyDict.get "1" (choices s) = Some mB
    ∧ prompt_interactive BaseVariant (new_command five 2) (["next"] ++ ["1"])
      = (evs, Returned (Some mB)).
Proof.
  eexists _, _. split; [reflexivity|]. split; [reflexivity|].
  eapply (visible_label_returns_item BaseVariant (new_command five 2) ["next"]);
    reflexivity.
Defined.

(** C5 as stated fails on an empty source: the lookup ends on
    [on_empty_error], which [BaseCommand] leaves empty, and no fatal error
    is reported. *)
Lemma direct_lookup_on_empty_source :
  prompt BaseVariant (Some "7") 10 [] (new_command (@nil Manga) 2)
  = AnsGenerator ([EvFetch Next; EvEmptyHook], GenReturn).
Proof. vm_compute. reflexivity. Qed.

Lemma direct_lookup_witness :
  prompt BaseVariant (Some "7") 4 [] (new_command [mA; mB; mC] 2)
  = AnsGenerator
      ([EvFetch Next; EvFetch Next; EvFetch Next],
       GenExit "There are no more results")
  ∧ prompt BaseVariant (Some "2") 4 [] (new_command [mA; mB; mC] 2)
    = AnsGenerator ([EvFetch Next; EvFetch Next; EvYield mC], GenReturn)
  ∧ prompt BaseVariant (Some "*") 4 [] (new_command [mA; mB; mC] 2)
    = AnsGenerator
        ([EvFetch Next; EvYield mA; EvYield mB; EvFetch Next;
          EvYield mA; EvYield mB; EvYield mC; EvFetch Next],
         GenExit "There are no more results")
  ∧ prompt (MangaVariant "nothing found") (Some "7") 4 []
      (new_command (@nil Manga) 2)
    = AnsGenerator ([EvFetch Next; EvEmptyHook], GenExit "nothing found").
Proof.
  split_and!.
  - apply (direct_lookup BaseVariant [mA; mB; mC] 2 "7" 4 []
             ltac:(lia) ltac:(done) ltac:(simpl; lia)); [done..|].
    intros i Hi. simpl in Hi.
    destruct i as [|[|[|i]]]; [vm_compute; discriminate.. | lia].
  - apply (proj1 (proj2 (direct_lookup BaseVariant [mA; mB; mC] 2 "2" 4 []
                           ltac:(lia) ltac:(done) ltac:(simpl; lia)))
             2 mC); reflexivity.
  - apply (direct_lookup BaseVariant [mA; mB; mC] 2 "*" 4 []
             ltac:(lia) ltac:(done) ltac:(simpl; lia)); done.
  - apply (direct_lookup (MangaVariant "nothing found") (@nil Manga) 2 "7" 4 []
             ltac:(lia) ltac:(done) ltac:(simpl; lia)); done.
Defined.

(** C8 as stated fails: a line that only starts with "next" is taken as
    "next"; the next page is fetched and no invalid choice is reported. *)
Lemma line_starting_with_next_navigates :
  prompt_interactive BaseVariant (new_command five 2) ["nextfoo"]
  = prompt_interactive BaseVariant (new_command five 2) ["next"]
  ∧ (prompt_interactive BaseVariant (new_command five 2) ["nextfoo"]).1
    = [EvFetch Next; EvPrintChoices page1; EvFetch Next; EvPrintChoices page2].
Proof. vm_compute. done. Qed.

(** * Further properties of the code *)

(** ** One step of the loop *)

Section step_facts.
Context {P Item : Type} `{!PaginatorOps P Item, !ItemLike Item}.
Variable variant : Variant Item.
Implicit Types (s : Session P Item) (ch : dict Item) (cmd : Command P).

(** A preview request never fetches a page and never changes the session:
    the loop goes on from the very same state, unless [on_preview] itself
    raises. *)
Theorem preview_leaves_session answer s :
  taken_as_preview variant answer = true →
  Forall (λ e, fetch_event e = false) (dispatch variant answer s).1 ∧
  ((dispatch variant answer s).2 = inr s ∨
   ∃ item e,
     PyDict.get (preview_label answer) (choices s) = Some item ∧
     on_preview variant item = Some e ∧
     (dispatch variant answer s).2 = inl (Raised e)).
Proof.
  intros Ht. rewrite (dispatch_preview variant _ _ Ht).
  destruct (PyDict.get (preview_label answer) (choices s)) as [item|]; simpl.
  - split; [by repeat constructor|].
    destruct (on_preview variant item) as [e|] eqn:He;
      [right; by exists item, e | by left].
  - split; [by repeat constructor | by left].
Qed.






Lemma insert_pairs_NoDup (page : list (nat * Item)) ch text :
  NoDup (PyDict.keys ch) →
  NoDup (PyDict.keys (foldl insert_pair (ch, text) page).1).
Proof.
  revert ch text. induction page as [|[pos x] page IH]; intros ch text Hnd;
    simpl; [done|].
  by apply IH, NoDup_keys_set.
Qed.

Lemma _insert_choices_NoDup a cmd ch :
  NoDup (PyDict.keys ch) → NoDup (PyDict.keys (_insert_choices a cmd ch).1.2).
Proof.
  intros Hnd. unfold _insert_choices.
  destruct (pg_call a (paginator cmd)) as [pg f].
  pose proof (insert_pairs_NoDup (delivered f) ch EmptyString Hnd) as Hnd'.
  destruct (foldl insert_pair (ch, EmptyString) (delivered f)) as [ch1 text].
  by destruct (raised f).
Qed.

Lemma prompt_loop_labels inputs s evs s' :
  prompt_loop variant inputs s = (evs, Waiting s') →
  PyDict.keys (choices s) `prefix_of` PyDict.keys (choices s') ∧
  (NoDup (PyDict.keys (choices s)) → NoDup (PyDict.keys (choices s'))).
Proof.
  revert s evs. induction inputs as [|answer inputs IH]; intros s evs; simpl.
  - by intros [= <- <-].
  - destruct (dispatch variant answer s) as [devs [out|s1]] eqn:Hd.
    { intros [= <- ->]. by apply dispatch_not_waiting in Hd. }
    destruct (prompt_loop variant inputs s1) as [evs1 out1] eqn:Hl.
    intros [= <- ->]. destruct (IH _ _ Hl) as [Hpre Hnd].
    pose proof (dispatch_keys_grow _ _ _ _ _ Hd) as Hstep.
    split; [by etrans|]. intros Hs. apply Hnd.
    apply dispatch_continue in Hd as [[_ ->]|(a & err & Hins)]; [done|].
    pose proof (_insert_choices_NoDup a (self s) (choices s) Hs) as Hnd1.
    by rewrite Hins in Hnd1.
Qed.

(** Whatever the paginator delivers and whatever lines are entered, the
    labels of the choice set only grow: between two points of a session at
    which the loop waits for input no label is deleted or moved, so the
    labels of the earlier point are the first labels of the later one; and
    the labels are distinct labels of positions. *)
Theorem labels_only_grow cmd inputs more evs evs' s s' :
  prompt_interactive variant cmd inputs = (evs, Waiting s) →
  prompt_interactive variant cmd (inputs ++ more) = (evs', Waiting s') →
  PyDict.keys (choices s) `prefix_of` PyDict.keys (choices s') ∧
  NoDup (PyDict.keys (choices s')) ∧
  labels_numeric (choices s').
Proof.
  intros Hrun Hrun'.
  assert (NoDup (PyDict.keys (choices s'))) as Hnd.
  { revert Hrun'. unfold prompt_interactive.
    pose proof (_insert_choices_NoDup Next cmd [] (NoDup_nil_2 (A:=string))) as Hfirst.
    destruct (_insert_choices Next cmd []) as [[cmd1 ch] err].
    destruct err as [[| |name]|];
      [simpl; by destruct (on_empty_error variant) | done | done |].
    destruct (prompt_loop variant (inputs ++ more) _) as [evs1 out] eqn:Hl.
    intros [= <- ->]. by apply prompt_loop_labels in Hl as [_ Hkeep]; auto. }
  pose proof (prompt_interactive_waiting _ _ _ _ _ Hrun') as [Hnum _].
  apply prompt_interactive_waiting in Hrun as (_ & evs0 & -> & Hmore).
  rewrite Hmore in Hrun'.
  destruct (prompt_loop variant more s) as [evs1 out] eqn:Hl.
  simpl in Hrun'. injection Hrun' as _ ->.
  by apply prompt_loop_labels in Hl as [Hpre _].
Qed.

End step_facts.

(** ** The label of a preview request *)

Lemma is_digit_not_space c : is_digit c = true → PyStr.isspace c = false.
Proof.
  unfold is_digit, PyStr.isspace. generalize (nat_of_ascii c). intros n.
  rewrite andb_true_iff, !Nat.leb_le. intros [Hlo Hhi].
  rewrite !orb_false_iff, !andb_false_iff, !Nat.leb_gt, !Nat.eqb_neq. lia.
Qed.

Lemma pretty_N_go_digits x acc :
  all_digits acc = true → all_digits (pretty_N_go x acc) = true.
Proof.
  revert acc. induction (N.lt_wf_0 x) as [x _ IH]; intros acc Hacc.
  destruct (decide (x = 0)%N) as [->|Hx]; [by rewrite pretty_N_go_0|].
  rewrite pretty_N_go_step by lia. apply IH; [apply N.div_lt; lia|].
  simpl. by rewrite pretty_N_char_digit.
Qed.

(** A label is a string of decimal digits. *)
Lemma label_digits (n : nat) : all_digits (pretty n) = true.
Proof.
  unfold pretty, pretty_nat, pretty, pretty_N.
  case_decide; [done|]. by apply pretty_N_go_digits.
Qed.

Lemma lstrip_spaces ws rest :
  all_space ws = true → PyStr.lstrip (ws +:+ rest) = PyStr.lstrip rest.
Proof.
  induction ws as [|c ws IH]; simpl; [done|].
  intros [-> Hws]%andb_true_iff. by apply IH.
Qed.

Lemma rstrip_spaces ws : all_space ws = true → PyStr.rstrip ws = EmptyString.
Proof.
  induction ws as [|c ws IH]; simpl; [done|].
  intros [-> Hws]%andb_true_iff. by rewrite IH.
Qed.

Lemma rstrip_digits d ws :
  all_digits d = true → all_space ws = true → PyStr.rstrip (d +:+ ws) = d.
Proof.
  intros Hd Hws. induction d as [|c d IH]; simpl.
  - by apply rstrip_spaces.
  - simpl in Hd. apply andb_true_iff in Hd as [Hc Hd]. rewrite IH by done.
    destruct d; [by rewrite (is_digit_not_space _ Hc) | done].
Qed.

(** [strip()] removes the white space around a label and nothing else. *)
Lemma strip_label (n : nat) ws1 ws2 :
  all_space ws1 = true → all_space ws2 = true →
  PyStr.strip (ws1 +:+ pretty n +:+ ws2) = pretty n.
Proof.
  intros H1 H2. unfold PyStr.strip. rewrite lstrip_spaces by done.
  pose proof (label_digits n) as Hd.
  destruct (label_head n) as (c & rest & Heq & Hc).
  assert (PyStr.lstrip (pretty n +:+ ws2) = pretty n +:+ ws2) as ->.
  { rewrite Heq. simpl. by rewrite (is_digit_not_space _ Hc). }
  by apply rstrip_digits.
Qed.

Lemma startswith_append pre rest : PyStr.startswith (pre +:+ rest) pre = true.
Proof.
  induction pre as [|c pre IH]; simpl; [by destruct rest|].
  by rewrite decide_True.
Qed.

Section preview_facts.
Context {P Item : Type} `{!PaginatorOps P Item, !ItemLike Item}.
Variable variant : Variant Item.
Implicit Types (s : Session P Item).

(** In a variant with preview, the word "preview" followed by a label of
    the choice set, with any white space (or none) before and after the
    label, previews the item of that label: [on_preview] is called with it
    and, when it returns, the loop goes on from the same state. *)
Theorem preview_of_label s (n : nat) item ws1 ws2 :
  preview variant = true →
  all_space ws1 = true → all_space ws2 = true →
  PyDict.get (pretty n) (choices s) = Some item →
  dispatch variant ("preview" +:+ ws1 +:+ pretty n +:+ ws2) s
  = ([EvPreview item],
     match on_preview variant item with
     | Some e => inl (Raised e)
     | None => inr s
     end).
Proof.
  intros Hp H1 H2 Hg.
  assert (taken_as_preview variant ("preview" +:+ ws1 +:+ pretty n +:+ ws2)
          = true) as Ht
    by (unfold taken_as_preview; by rewrite Hp, startswith_append).
  rewrite (dispatch_preview variant _ _ Ht).
  assert (preview_label ("preview" +:+ ws1 +:+ pretty n +:+ ws2) = pretty n)
    as -> by (unfold preview_label; simpl; by apply strip_label).
  by rewrite Hg.
Qed.

End preview_facts.

(** ** Direct lookups over any paginator *)

Section lookup_shape.
Context {P Item : Type} `{!PaginatorOps P Item, !ItemLike Item}.
Variable variant : Variant Item.
Implicit Types (ch : dict Item) (cmd : Command P).

Lemma return_from_loop_shape fuel pos cmd ch :
  Forall (λ e, prompt_event e = false) (return_from_loop fuel pos cmd ch).1 ∧
  (pos ≠ "*" →
   (yields (return_from_loop fuel pos cmd ch).1 = []
    ∧ (return_from_loop fuel pos cmd ch).2 ≠ GenReturn)
   ∨ ∃ item evs0,
       (return_from_loop fuel pos cmd ch).1 = evs0 ++ [EvYield item]
       ∧ yields evs0 = []
       ∧ (return_from_loop fuel pos cmd ch).2 = GenReturn).
Proof.
  revert cmd ch. induction fuel as [|fuel IH]; intros cmd ch; simpl.
  { split; [constructor | by left]. }
  destruct (PyDict.get pos ch) as [result|]; simpl.
  { split; [by repeat constructor|]. intros _. right. by exists result, []. }
  assert (Forall (λ e : Event Item, prompt_event e = false)
            (if decide (pos = "*") then EvYield <$> PyDict.values ch else []))
    as Hyielded.
  { case_decide; [|constructor]. apply Forall_fmap, Forall_true. done. }
  destruct (_insert_choices Next cmd ch) as [[cmd' ch'] [[| |name]|]];
    [| |simpl; split;
        [apply Forall_app; split; [done | by repeat constructor]
        |intros Hpos; left; by rewrite decide_False by done]|].
  - simpl. split.
    + apply Forall_app. split; [done | by repeat constructor].
    + intros Hpos. left. by rewrite decide_False by done.
  - destruct (IH cmd' ch') as [Hall Hshape].
    destruct (return_from_loop fuel pos cmd' ch') as [evs e]. simpl in *.
    split.
    + apply Forall_app. split; [done|]. by repeat constructor.
    + intros Hpos. rewrite decide_False by done. simpl.
      destruct (Hshape Hpos) as [[Hy He]|(item & evs0 & -> & Hy & ->)].
      * by left.
      * right. by exists item, (EvFetch Next
          :: _error "Choices are out of range, try again" :: evs0).
  - destruct (IH cmd' ch') as [Hall Hshape].
    destruct (return_from_loop fuel pos cmd' ch') as [evs e]. simpl in *.
    split.
    + apply Forall_app. split; [done|]. by repeat constructor.
    + intros Hpos. rewrite decide_False by done. simpl.
      destruct (Hshape Hpos) as [[Hy He]|(item & evs0 & -> & Hy & ->)].
      * by left.
      * right. by exists item, (EvFetch Next :: evs0).
Qed.

(** A direct lookup never shows the choices and never previews; and for a
    label other than the wildcard it yields at most one item, after which
    the generator ends at once: the item is the last event and the end is
    the normal one. *)
Theorem direct_lookup_shape fuel pos cmd :
  Forall (λ e, prompt_event e = false) (_return_from variant fuel pos cmd).1 ∧
  (pos ≠ "*" →
   length (yields (_return_from variant fuel pos cmd).1) ≤ 1 ∧
   ∀ item, item ∈ yields (_return_from variant fuel pos cmd).1 →
     (_return_from variant fuel pos cmd).2 = GenReturn ∧
     last (_return_from variant fuel pos cmd).1 = Some (EvYield item)).
Proof.
  unfold _return_from.
  destruct (_insert_choices Next cmd []) as [[cmd' ch] [[| |name]|]]; simpl.
  - split; [by repeat constructor|]. intros _. split; [lia|].
    intros item Hin. by apply not_elem_of_nil in Hin.
  - split; [by repeat constructor|]. intros _. split; [lia|].
    intros item Hin. by apply not_elem_of_nil in Hin.
  - split; [by repeat constructor|]. intros _. split; [lia|].
    intros item Hin. by apply not_elem_of_nil in Hin.
  - destruct (return_from_loop_shape fuel pos cmd' ch) as [Hall Hshape].
    destruct (return_from_loop fuel pos cmd' ch) as [evs e]. simpl in *.
    split; [by constructor|]. intros Hpos.
    destruct (Hshape Hpos) as [[-> He]|(item & evs0 & -> & Hy & ->)].
    + split; [simpl; lia|]. intros item Hin. by apply not_elem_of_nil in Hin.
    + unfold yields in *. rewrite omap_app, Hy. simpl. split; [lia|].
      intros item' ->%list_elem_of_singleton. split; [done|].
      by rewrite app_comm_cons, last_snoc.
Qed.

Lemma wildcard_loop_end fuel cmd ch :
  labels_numeric ch →
  (return_from_loop fuel "*" cmd ch).2 = GenExit "There are no more results"
  ∨ (∃ name p, (return_from_loop fuel "*" cmd ch).2
               = GenRaise (PaginatorError name)
               ∧ raised (pg_call Next p).2 = Some (OtherError name))
  ∨ (return_from_loop fuel "*" cmd ch).2 = GenFuel.
Proof.
  revert cmd ch. induction fuel as [|fuel IH]; intros cmd ch Hch; simpl.
  { by right; right. }
  destruct (PyDict.get "*" ch) as [result|] eqn:Hg.
  { destruct (labels_numeric_get _ _ _ Hch Hg) as [n Hn].
    by destruct (label_not_star n). }
  pose proof (_insert_choices_raised Next cmd ch) as Herr.
  destruct (_insert_choices Next cmd ch) as [[cmd' ch'] err] eqn:Hins.
  apply _insert_choices_grow in Hins as (_ & Hnum & _).
  destruct err as [[| |name]|]; simpl in *.
  - by left.
  - specialize (IH cmd' ch' (Hnum Hch)).
    by destruct (return_from_loop fuel "*" cmd' ch').
  - right; left. eauto.
  - specialize (IH cmd' ch' (Hnum Hch)).
    by destruct (return_from_loop fuel "*" cmd' ch').
Qed.

(** Once the first page is fetched, a wildcard lookup never ends normally,
    whatever the paginator: its loop is left only by an exception of a call
    of [next()], either [IteratorEmpty], which ends the command with "There
    are no more results", or an exception [_return_from] does not catch (any
    but [IndexError]), which leaves the generator as it is. *)
Theorem wildcard_has_no_normal_end fuel cmd :
  raised (pg_call Next (paginator cmd)).2 = None →
  (_return_from variant fuel "*" cmd).2 = GenExit "There are no more results"
  ∨ (∃ name p, (_return_from variant fuel "*" cmd).2
               = GenRaise (PaginatorError name)
               ∧ raised (pg_call Next p).2 = Some (OtherError name))
  ∨ (_return_from variant fuel "*" cmd).2 = GenFuel.
Proof.
  intros Hfirst. unfold _return_from.
  pose proof (_insert_choices_raised Next cmd []) as Herr.
  destruct (_insert_choices Next cmd []) as [[cmd' ch] err] eqn:Hins.
  simpl in Herr. rewrite Hfirst in Herr. subst err.
  apply _insert_choices_grow in Hins as (_ & Hnum & _).
  assert (labels_numeric (@nil (string * Item))) as Hnil by constructor.
  pose proof (wildcard_loop_end fuel cmd' ch (Hnum Hnil)) as Hend.
  by destruct (return_from_loop fuel "*" cmd' ch).
Qed.

Lemma prompt_on_exhausted_first_fetch input_pos fuel inputs cmd :
  raised (pg_call Next (paginator cmd)).2 = Some IteratorEmpty →
  MangaDexCommand_prompt variant input_pos fuel inputs cmd
  = ([EvFetch Next; EvEmptyHook],
     match truthy_pos input_pos, on_empty_error variant with
     | Some _, Some msg => MdxIter [] (GenExit msg)
     | Some _, None => MdxIter [] GenReturn
     | None, Some msg => MdxStop (Exited msg)
     | None, None => MdxStop (Raised (AttributeError "id"))
     end).
Proof.
  intros Hfirst.
  unfold MangaDexCommand_prompt, prompt, _return_from, prompt_interactive.
  pose proof (_insert_choices_raised Next cmd []) as Herr.
  destruct (_insert_choices Next cmd []) as [[cmd' ch] err].
  simpl in Herr. rewrite Hfirst in Herr. subst err.
  destruct (truthy_pos input_pos); simpl; by destruct (on_empty_error variant).
Qed.

(** When the first page cannot be fetched because the source is exhausted,
    [MangaDexCommand.prompt] calls [on_empty_error] once. If the hook ends
    the command nothing else happens. If it returns, as the one of
    [BaseCommand] does, the direct mode yields no id, and the interactive
    mode raises [AttributeError]: [answer] is [None] and [answer.id] is
    evaluated. *)
Theorem mangadex_prompt_on_exhausted_source input_pos fuel inputs cmd :
  raised (pg_call Next (paginator cmd)).2 = Some IteratorEmpty →
  MangaDexCommand_prompt variant input_pos fuel inputs cmd
  = ([EvFetch Next; EvEmptyHook],
     match truthy_pos input_pos, on_empty_error variant with
     | Some _, Some msg => MdxIter [] (GenExit msg)
     | Some _, None => MdxIter [] GenReturn
     | None, Some msg => MdxStop (Exited msg)
     | None, None => MdxStop (Raised (AttributeError "id"))
     end).
Proof. apply prompt_on_exhausted_first_fetch. Qed.

End lookup_shape.

(** For each of the six registered commands an empty result ends the
    command through [args_parser.error] with the message of its class, in
    the interactive and in the direct mode alike; no id is produced and
    [answer.id] is never evaluated on [None]. *)
Theorem registered_command_exits_on_empty {P Item : Type}
    `{!PaginatorOps P Item, !ItemLike Item}
    (on_preview : Item → option PyExn) (k : CommandKind)
    input_pos fuel inputs (cmd : Command P) :
  raised (pg_call Next (paginator cmd)).2 = Some IteratorEmpty →
  MangaDexCommand_prompt (command_variant on_preview k) input_pos fuel inputs
    cmd
  = ([EvFetch Next; EvEmptyHook],
     match truthy_pos input_pos with
     | Some _ => MdxIter [] (GenExit (empty_message k))
     | None => MdxStop (Exited (empty_message k))
     end).
Proof.
  intros Hfirst. rewrite prompt_on_exhausted_first_fetch by done.
  simpl. by destruct (truthy_pos input_pos).
Qed.

(** ** The ids of an answer and the text of the choices *)

Lemma first_seen_sublist l : first_seen l `sublist_of` l.
Proof.
  induction l as [|x l IH]; simpl; [done|].
  apply sublist_skip. etrans; [apply sublist_filter | done].
Qed.

Lemma string_app_assoc (a b c : string) : (a +:+ b) +:+ c = a +:+ b +:+ c.
Proof.
  induction a as [|x a IH]; [done|].
  change (String x ((a +:+ b) +:+ c) = String x (a +:+ b +:+ c)).
  by rewrite IH.
Qed.

Lemma string_app_nil_r (a : string) : a +:+ EmptyString = a.
Proof.
  induction a as [|x a IH]; [done|].
  change (String x (a +:+ EmptyString) = String x a). by rewrite IH.
Qed.

Section answer_facts.
Context {P Item : Type} `{!PaginatorOps P Item, !ItemLike Item}.
Implicit Types (answer : list Item) (ch : dict Item) (cmd : Command P).

(** The generator [iter_answer] of [MangaDexCommand.prompt] yields no id
    twice, yields exactly the ids the items of the answer have, and keeps
    them in the order of the answer. *)
Theorem iter_answer_never_repeats answer :
  NoDup (iter_answer [] answer) ∧
  (∀ x, x ∈ iter_answer [] answer ↔ ∃ item, item ∈ answer ∧ item_id item = x) ∧
  iter_answer [] answer `sublist_of` (item_id <$> answer).
Proof.
  rewrite iter_answer_first_seen. split_and!.
  - apply NoDup_first_seen.
  - intros x. rewrite elem_of_first_seen, list_elem_of_fmap. naive_solver.
  - apply first_seen_sublist.
Qed.

Lemma insert_pairs_text (page : list (nat * Item)) ch text :
  (foldl insert_pair (ch, text) page).2
  = text +:+ foldr String.append EmptyString (choice_line <$> page).
Proof.
  revert ch text. induction page as [|p page IH]; intros ch text; csimpl.
  - by rewrite string_app_nil_r.
  - unfold insert_pair at 2. simpl. rewrite IH.
    change ((text +:+ choice_line p) +:+
              foldr String.append EmptyString (choice_line <$> page)
            = text +:+ choice_line p +:+
              foldr String.append EmptyString (choice_line <$> page)).
    by rewrite string_app_assoc.
Qed.

(** The text [_insert_choices] leaves in [_text_choices] is made of the
    lines of the page just delivered, one line [(pos). item] for each pair
    and in their order, and of nothing from earlier pages; when the
    paginator raises, the text of before stays (while the pairs delivered
    before the exception are in the choice set all the same). *)
Theorem _insert_choices_text a cmd ch :
  _text_choices (_insert_choices a cmd ch).1.1
  = match raised (pg_call a (paginator cmd)).2 with
    | None =>
        foldr String.append EmptyString
          (choice_line <$> delivered (pg_call a (paginator cmd)).2)
    | Some _ => _text_choices cmd
    end.
Proof.
  unfold _insert_choices. destruct (pg_call a (paginator cmd)) as [pg f].
  simpl. pose proof (insert_pairs_text (delivered f) ch EmptyString) as Htext.
  destruct (foldl insert_pair _ _) as [ch' text]. simpl in Htext.
  by destruct (raised f).
Qed.

End answer_facts.

(** ** More on the search filters *)

Section filter_parsing.
Variable get_key_value : string → string * string.
Variable split_comma_separated : string → bool → FilterValue.
Implicit Types (fk : dict FilterValue) (key : string) (filters : list string).


Lemma keys_add_filter fk f :
  PyDict.keys (add_filter get_key_value split_comma_separated fk f)
  = if decide ((get_key_value f).1 ∈ PyDict.keys fk) then PyDict.keys fk
    else PyDict.keys fk ++ [(get_key_value f).1].
Proof.
  unfold add_filter. destruct (get_key_value f) as [key value]. simpl.
  destruct (PyDict.get key fk) as [old|] eqn:Hg.
  - rewrite decide_True by by eapply get_Some_keys.
    apply keys_set_bound. by eexists.
  - rewrite decide_False by by apply get_None_keys.
    rewrite set_fresh by done. unfold PyDict.keys. by rewrite fmap_app.
Qed.

Lemma keys_parse_from fk filters :
  PyDict.keys (foldl (add_filter get_key_value split_comma_separated) fk filters)
  = PyDict.keys fk
    ++ filter (λ k, k ∉ PyDict.keys fk)
         (first_seen ((λ f, (get_key_value f).1) <$> filters)).
Proof.
  revert fk. induction filters as [|f filters IH]; intros fk; csimpl.
  - by rewrite app_nil_r.
  - rewrite IH, keys_add_filter. case_decide as Hin.
    + f_equal. rewrite filter_cons_False by tauto.
      rewrite list_filter_filter. apply list_filter_iff. intros k.
      split; [|tauto]. intros Hk. split; [done|]. congruence.
    + rewrite <-app_assoc. f_equal. rewrite filter_cons_True by done.
      simpl. f_equal. rewrite list_filter_filter. apply list_filter_iff.
      intros k. rewrite not_elem_of_app, list_elem_of_singleton. tauto.
Qed.

Lemma keys_parse filters :
  PyDict.keys
    (foldl (add_filter get_key_value split_comma_separated) [] filters)
  = first_seen ((λ f, (get_key_value f).1) <$> filters).
Proof.
  rewrite keys_parse_from. simpl. apply filter_all.
  intros k _. apply not_elem_of_nil.
Qed.

(** The parsed filters have one entry for each key of the filters, in the
    order in which the keys first appear: a key that comes again never
    makes a second entry. *)
Theorem parsed_keys_first_seen filters :
  PyDict.keys
    (foldl (add_filter get_key_value split_comma_separated) [] filters)
  = first_seen ((λ f, (get_key_value f).1) <$> filters).
Proof. apply keys_parse. Qed.

Lemma accumulated_snoc values v old :
  accumulated split_comma_separated values = Some old →
  accumulated split_comma_separated (values ++ [v])
  = Some (FList (as_list old
                 ++ extended_by (split_comma_separated v true))).
Proof.
  destruct values as [|v1 [|v2 later]]; simpl; [done|..].
  - intros [= <-]. by rewrite app_nil_r.
  - intros [= <-]. simpl. do 2 f_equal.
    change (list_fmap string (list string) ?f ?l) with (f <$> l).
    rewrite fmap_app, concat_app, <-!app_assoc. simpl.
    by rewrite app_nil_r.
Qed.

Lemma get_add_filter fk f key :
  PyDict.get key (add_filter get_key_value split_comma_separated fk f)
  = if decide ((get_key_value f).1 = key) then
      Some match PyDict.get key fk with
           | None => split_comma_separated (get_key_value f).2 false
           | Some old =>
               FList (as_list old
                      ++ extended_by
                           (split_comma_separated (get_key_value f).2 true))
           end
    else PyDict.get key fk.
Proof.
  unfold add_filter. destruct (get_key_value f) as [k v]. simpl.
  case_decide as Hk.
  - subst k. destruct (PyDict.get key fk) as [old|];
      rewrite get_set_eq; by try destruct old.
  - destruct (PyDict.get k fk); by rewrite get_set_ne.
Qed.

Lemma values_for_snoc filters f key :
  values_for get_key_value key (filters ++ [f])
  = values_for get_key_value key filters
    ++ (if decide ((get_key_value f).1 = key) then [(get_key_value f).2]
        else []).
Proof.
  unfold values_for. rewrite omap_app. f_equal. csimpl.
  destruct (get_key_value f) as [k v]. simpl. by case_decide.
Qed.

(** Filters with the same key accumulate, none overwrites another: the
    entry of a key is the split of its value when the key comes once, and
    otherwise the list that starts with (the split of) its first value and
    is extended, filter after filter, by the split of each later value. *)
Theorem parsed_values_accumulate filters key :
  PyDict.get key
    (foldl (add_filter get_key_value split_comma_separated) [] filters)
  = accumulated split_comma_separated (values_for get_key_value key filters).
Proof.
  induction filters as [|f filters IH] using rev_ind; [done|].
  rewrite foldl_app. cbn [foldl]. rewrite get_add_filter, IH, values_for_snoc.
  destruct (decide ((get_key_value f).1 = key)) as [Hk|Hne].
  - destruct (accumulated _ _) as [old|] eqn:Hacc.
    + by rewrite (accumulated_snoc _ _ old).
    + destruct (values_for _ _ filters) as [|v1 [|v2 later]]; done.
  - by rewrite app_nil_r.
Qed.

Lemma keys_pop k fk :
  NoDup (PyDict.keys fk) →
  PyDict.keys (PyDict.pop k fk) = filter (λ k', k' ≠ k) (PyDict.keys fk).
Proof.
  unfold PyDict.keys. induction fk as [|[k0 v0] fk IH]; csimpl; [done|].
  rewrite NoDup_cons. intros [Hnotin Hnd]. destruct (decide (k = k0)) as [->|Hne].
  - rewrite filter_cons_False by naive_solver. symmetry. apply filter_all.
    intros k' Hk' ->. done.
  - csimpl. rewrite filter_cons_True by congruence. f_equal. by apply IH.
Qed.

Lemma keys_remove_step (ks : list string) fk :
  NoDup (PyDict.keys fk) →
  PyDict.keys (foldl (λ fk key, PyDict.pop key fk) fk ks)
  = filter (λ k, k ∉ ks) (PyDict.keys fk).
Proof.
  revert fk. induction ks as [|k ks IH]; intros fk Hnd; cbn [foldl].
  - symmetry. apply filter_all. intros k _. apply not_elem_of_nil.
  - rewrite IH by by apply NoDup_keys_pop. rewrite keys_pop by done.
    rewrite list_filter_filter. apply list_filter_iff. intros k'.
    rewrite not_elem_of_cons. tauto.
Qed.

Lemma keys_fmap_values {V W} (g : V → W) (d : dict V) :
  PyDict.keys (prod_map id g <$> d) = PyDict.keys d.
Proof.
  unfold PyDict.keys. induction d as [|[k v] d IH]; csimpl; [done|].
  by f_equal.
Qed.

Lemma filter_ext_in {A} (Q1 Q2 : A → Prop)
    `{!∀ x, Decision (Q1 x), !∀ x, Decision (Q2 x)} (l : list A) :
  (∀ x, x ∈ l → Q1 x ↔ Q2 x) → filter Q1 l = filter Q2 l.
Proof.
  induction l as [|x l IH]; intros Hext; [done|].
  rewrite !filter_cons. rewrite IH by (intros y Hy; apply Hext; by right).
  apply decide_ext, Hext. left.
Qed.

(** The keyword mapping handed to [IteratorManga] always has the key
    "order", as its last key and once; before it come the keys of the
    filters that do not contain "order", in the order of their first
    appearance. Without any filter the mapping is [{'order': {}}]. *)
Theorem final_keys search_filter :
  PyDict.keys
    (search_filter_kwargs get_key_value split_comma_separated search_filter)
  = filter (λ k, PyStr.contains "order" k = false)
      (first_seen ((λ f, (get_key_value f).1) <$> default [] search_filter))
    ++ ["order"]
  ∧ NoDup (PyDict.keys
             (search_filter_kwargs get_key_value split_comma_separated
                search_filter))
  ∧ search_filter_kwargs get_key_value split_comma_separated None
    = [("order", KOrders [])].
Proof.
  assert (PyDict.keys
    (search_filter_kwargs get_key_value split_comma_separated search_filter)
  = filter (λ k, PyStr.contains "order" k = false)
      (first_seen ((λ f, (get_key_value f).1) <$> default [] search_filter))
    ++ ["order"]) as Hkeys.
  { unfold search_filter_kwargs, assemble_filters.
    rewrite <-keys_parse. set (parsed := foldl _ _ _).
    assert (NoDup (PyDict.keys parsed)) as Hnd by apply NoDup_keys_parsed.
    assert (PyDict.keys (remove_orders (collect_orders parsed) parsed)
            = filter (λ k, PyStr.contains "order" k = false)
                (PyDict.keys parsed)) as Hflat.
    { unfold remove_orders. rewrite keys_remove_step by done.
      apply filter_ext_in. intros k Hk.
      rewrite <-get_None_keys,
        (get_collect_orders get_key_value split_comma_separated).
      destruct (PyStr.contains "order" k); [|done].
      split; [|done]. intros Hnone. apply get_None_keys in Hnone. done. }
    pose proof (keys_fmap_values KValue
                  (remove_orders (collect_orders parsed) parsed)) as Hmap.
    rewrite Hflat in Hmap. rewrite set_fresh.
    - unfold PyDict.keys in *. by rewrite fmap_app, Hmap.
    - apply get_None_keys. rewrite Hmap.
      rewrite list_elem_of_filter. by intros [? _]. }
  split_and!; [done | | done].
  rewrite Hkeys. apply NoDup_app. split_and!.
  - apply NoDup_filter, NoDup_first_seen.
  - intros k [Hk _]%list_elem_of_filter ->%list_elem_of_singleton. done.
  - apply NoDup_singleton.
Qed.

End filter_parsing.

(** ** The content ratings of [RandomMangaCommand] *)

Section rating_facts.
Variable get_key_value_sep : string → string → string * string.
Variable split_comma_separated : string → bool → FilterValue.
Variable content_rating_values : list string.

Lemma verify_ratings_spec (l : list string) :
  match verify_ratings content_rating_values l with
  | RatingsOk r => r = l ∧ Forall (λ i, i ∈ content_rating_values) l
  | RatingsInvalid v => v ∈ l ∧ v ∉ content_rating_values
  | RatingsIndexError => False
  end.
Proof.
  induction l as [|i l IH]; simpl; [by split|].
  case_decide as Hi; [|split; [left | done]].
  destruct (verify_ratings content_rating_values l) as [r| |v]; [|done|].
  - destruct IH as [-> Hall]. split; [done | by constructor].
  - destruct IH as [Hin Hv]. split; [by right | done].
Qed.

(** [RandomMangaCommand] hands [iter_random_manga] ratings of the enum
    only: all of them when the first rating given is empty, and otherwise
    the ratings given, as they were given, when every one of them is a
    value of the enum. A rating that is not makes the construction fail with
    that value, and an empty split fails on [content_ratings[0]]. *)
Theorem random_ratings_are_valid input_text :
  let given :=
    extended_by
      (split_comma_separated (get_key_value_sep input_text ":").2 true) in
  match random_content_ratings get_key_value_sep split_comma_separated
          content_rating_values input_text with
  | RatingsOk ratings =>
      Forall (λ i, i ∈ content_rating_values) ratings ∧
      ratings = (if decide (head given = Some EmptyString)
                 then content_rating_values else given)
  | RatingsInvalid v =>
      v ∈ given ∧ (v ∉ content_rating_values)
      ∧ head given ≠ Some EmptyString
  | RatingsIndexError => given = []
  end.
Proof.
  cbv zeta. unfold random_content_ratings.
  destruct (get_key_value_sep input_text ":") as [k raw_cr]. simpl.
  destruct (extended_by (split_comma_separated raw_cr true))
    as [|first rest] eqn:Hgiven; [done|].
  cbn [head]. destruct (decide (first = EmptyString)) as [->|Hfirst].
  - rewrite decide_True by done. split; [|done].
    apply Forall_forall. auto.
  - pose proof (verify_ratings_spec (first :: rest)) as Hspec.
    destruct (verify_ratings content_rating_values (first :: rest))
      as [r| |v]; cbv beta iota in Hspec; [|done|].
    + destruct Hspec as [-> Hall]. split; [done|].
      rewrite decide_False; [done | congruence].
    + destruct Hspec as [Hin Hv]. split_and!; [done..|congruence].
Qed.

End rating_facts.

(** ** Building a cover again from its data *)

Section cover_rebuild.
Context {Lang : Type}.
Variable get_cover_art : PyVal → PyExn + PyVal.
Variable get_language : PyVal → PyExn + Lang.

Lemma maps_fields_truthy data (c : CoverArt Lang) :
  maps_fields get_language data c → truthy data = true.
Proof.
  intros (_ & Hid & _). destruct data as [| | | | |d]; try done.
  by destruct d.
Qed.

(** A cover that was built, from data given or from data fetched, keeps in
    [data] all that is needed to build it again: the constructor called on
    that data gives the same cover and calls [get_cover_art] no more,
    whatever cover id it is given. *)
Theorem cover_art_rebuilds_from_data cover_id data c cover_id' :
  (CoverArt_init get_cover_art get_language cover_id data).2 = inr c →
  CoverArt_init get_cover_art get_language cover_id' (ca_data c)
  = ([], inr c).
Proof.
  intros Hbuilt.
  assert (maps_fields get_language (ca_data c) c) as Hfields.
  { unfold CoverArt_init in Hbuilt. destruct (truthy data); simpl in Hbuilt.
    - apply CoverArt_fields_spec in Hbuilt.
      by destruct Hbuilt as [<- ?].
    - unfold mbind, exn_bind in Hbuilt.
      destruct (get_cover_art cover_id) as [e|response]; [done|].
      destruct (getitem response "data") as [e|fetched]; [done|].
      apply CoverArt_fields_spec in Hbuilt.
      pose proof Hbuilt as [<- _]. done. }
  unfold CoverArt_init. rewrite (maps_fields_truthy _ _ Hfields). simpl.
  f_equal. by apply CoverArt_fields_spec.
Qed.

End cover_rebuild.

(** ** The inputs the further properties are checked on *)

Lemma preview_leaves_session_witness :
  ∃ s, session_after [] = Some s ∧
    (Forall (λ e, fetch_event e = false)
       (dispatch (MangaVariant "none") "preview 1" s).1 ∧
     ((dispatch (MangaVariant "none") "preview 1" s).2 = inr s ∨
      ∃ item e,
        PyDict.get (preview_label "preview 1") (choices s) = Some item ∧
        on_preview (MangaVariant "none") item = Some e ∧
        (dispatch (MangaVariant "none") "preview 1" s).2 = inl (Raised e))).
Proof.
  eexists. split; [reflexivity|].
  apply (preview_leaves_session (MangaVariant "none") "preview 1").
  reflexivity.
Defined.


Lemma labels_only_grow_witness :
  ∃ evs evs' s s',
    prompt_interactive (MangaVariant "none") (new_command five 2) ["next"]
    = (evs, Waiting s)
    ∧ prompt_interactive (MangaVariant "none") (new_command five 2)
        (["next"] ++ ["preview 9"; "previous"; "foo"; "next"; "next"])
      = (evs', Waiting s')
    ∧ PyDict.keys (choices s) = ["0"; "1"; "2"; "3"]
    ∧ PyDict.keys (choices s') = ["0"; "1"; "2"; "3"; "4"]
    ∧ (PyDict.keys (choices s) `prefix_of` PyDict.keys (choices s') ∧
       NoDup (PyDict.keys (choices s')) ∧
       labels_numeric (choices s')).
Proof.
  eexists _, _, _, _. split; [vm_compute; reflexivity|].
  split; [vm_compute; reflexivity|].
  split; [vm_compute; reflexivity|].
  split; [vm_compute; reflexivity|].
  eapply (labels_only_grow (MangaVariant "none") (new_command five 2) ["next"]
            ["preview 9"; "previous"; "foo"; "next"; "next"]); vm_compute; reflexivity.
Defined.

Lemma preview_of_label_witness :
  ∃ s, session_after [] = Some s ∧
    dispatch (MangaVariant "none") ("preview" +:+ "  " +:+ pretty 1 +:+ " ") s
    = ([EvPreview mB], inr s).
Proof.
  eexists. split; [reflexivity|].
  apply (preview_of_label (MangaVariant "none") _ 1 mB "  " " ");
    reflexivity.
Defined.

Lemma wildcard_has_no_normal_end_witness :
  (_return_from BaseVariant 10 "*" (new_command five 2)).2
    = GenExit "There are no more results"
  ∨ (∃ name (p : ListPaginator Manga),
       (_return_from BaseVariant 10 "*" (new_command five 2)).2
       = GenRaise (PaginatorError name)
       ∧ raised (pg_call Next p).2 = Some (OtherError name))
  ∨ (_return_from BaseVariant 10 "*" (new_command five 2)).2 = GenFuel.
Proof.
  apply (wildcard_has_no_normal_end BaseVariant 10 (new_command five 2)).
  reflexivity.
Defined.

Lemma mangadex_prompt_on_exhausted_source_witness :
  MangaDexCommand_prompt BaseVariant None 0 [] (new_command (@nil Manga) 2)
  = ([EvFetch Next; EvEmptyHook], MdxStop (Raised (AttributeError "id"))).
Proof.
  apply (mangadex_prompt_on_exhausted_source BaseVariant None 0 []
           (new_command (@nil Manga) 2)).
  reflexivity.
Defined.

Lemma registered_command_exits_on_empty_witness :
  MangaDexCommand_prompt
    (command_variant (λ _ : Manga, None) (GroupMangaCommand "Scans"))
    None 0 []
    (new_command [] (command_limit (GroupMangaCommand "Scans")))
  = ([EvFetch Next; EvEmptyHook],
     MdxStop (Exited (empty_message (GroupMangaCommand "Scans")))).
Proof.
  apply (registered_command_exits_on_empty (λ _ : Manga, None)
           (GroupMangaCommand "Scans") None 0 []).
  reflexivity.
Defined.

Lemma cover_art_rebuilds_from_data_witness :
  ∃ c,
    (CoverArt_init sample_get_cover_art sample_get_language
       (PStr "cover-1") PNone).2 = inr c
    ∧ CoverArt_init sample_get_cover_art sample_get_language PNone (ca_data c)
      = ([], inr c).
Proof.
  eexists. split; [reflexivity|].
  apply (cover_art_rebuilds_from_data sample_get_cover_art
           sample_get_language (PStr "cover-1") PNone).
  reflexivity.
Defined.

Lemma session_entries_stable_witness :
  ∃ evs evs' s s',
    prompt_interactive BaseVariant (new_command five 2) ["next"]
    = (evs, Waiting s)
    ∧ prompt_interactive BaseVariant (new_command five 2)
        (["next"] ++ ["previous"; "next"; "next"])
      = (evs', Waiting s')
    ∧ PyDict.keys (choices s') = ["0"; "1"; "2"; "3"; "4"]
    ∧ ∀ label item, PyDict.get label (choices s) = Some item →
                    PyDict.get label (choices s') = Some item.
Proof.
  eexists _, _, _, _. split; [vm_compute; reflexivity|].
  split; [vm_compute; reflexivity|].
  split; [vm_compute; reflexivity|].
  eapply (session_entries_stable BaseVariant five 2 ["next"]
            ["previous"; "next"; "next"]); vm_compute; reflexivity.
Defined.

Example random_ratings_example :
  random_content_ratings
    (λ text sep, default (text, EmptyString) (PyStr.split_once sep text))
    split_comma_separated_model ["safe"; "suggestive"; "erotica"]
    "random:safe,erotica"
  = RatingsOk ["safe"; "erotica"]
  ∧ random_content_ratings
      (λ text sep, default (text, EmptyString) (PyStr.split_once sep text))
      split_comma_separated_model ["safe"; "suggestive"; "erotica"]
      "random"
    = RatingsOk ["safe"; "suggestive"; "erotica"]
  ∧ random_content_ratings
      (λ text sep, default (text, EmptyString) (PyStr.split_once sep text))
      split_comma_separated_model ["safe"; "suggestive"; "erotica"]
      "random:safe,gore"
    = RatingsInvalid "gore".
Proof. vm_compute. done. Qed.
